(** * roll-phi: the numeric core of the [binom-viz] and [norm-viz] widgets

    A shallow embedding of
    - [BinomViz.pascal] (src/binomial.js), the memoised divide-and-conquer
      convolution that fills [this.triangle], and
    - the [Normal] object (src/rollφ.js): [erfc], [cdf], [pdf], [probit].

    JavaScript BigInts are modelled as [Z]; a [BigInt64Array] cell keeps the
    value reduced to a signed 64-bit integer on every store.  JavaScript
    numbers of [Normal] are IEEE-754 binary64 values, modelled by Rocq's
    primitive floats. *)

From Stdlib Require Import ZArith Lia List Floats.
From stdpp Require Import base option list gmap.

Open Scope Z_scope.

(** ** Rows of the triangle *)

Module Binom.

(** [BigInt.asIntN(64, z)]: what a [BigInt64Array] cell holds after [z] is
    stored into it. *)
Definition asIntN64 (z : Z) : Z := (z + 2 ^ 63) mod 2 ^ 64 - 2 ^ 63.

(** The two kinds of rows [pascal] allocates: a typed array of signed 64-bit
    cells, or a plain [Array] filled with BigInts. *)
Inductive row : Type :=
  | BigInt64Array (c : list Z)
  | BigIntArray (c : list Z).

Definition cells (r : row) : list Z :=
  match r with BigInt64Array c | BigIntArray c => c end.

(** [r[k] = v] for an index inside the row. *)
Definition store (r : row) (k : nat) (v : Z) : row :=
  match r with
  | BigInt64Array c => BigInt64Array (<[k := asIntN64 v]> c)
  | BigIntArray c => BigIntArray (<[k := v]> c)
  end.

(** What a call of [pascal] can throw.  [InvalidArgument] is the string
    thrown at line 141, [ComputationTooLarge] the one at line 149;
    [TypeError] is raised by [undefined + BigInt] (a read past the end of a
    row, or of a missing row), [RangeError] by a negative array length.
    [OutOfFuel] is not a JavaScript error: it marks a recursion deeper than
    the fuel handed to [pascal_rec]. *)
Inductive error : Type :=
  | InvalidArgument
  | ComputationTooLarge
  | TypeError
  | RangeError
  | OutOfFuel.

Inductive outcome (A : Type) : Type :=
  | Ok (a : A)
  | Throw (e : error).
Arguments Ok {A} a.
Arguments Throw {A} e.

(** [this.triangle]: a sparse array, read as a finite map from the row index
    to the row object stored there. *)
Abbreviation triangle := (gmap Z row).

(** The generator of the base row: [die] times [1n]. *)
Definition ones (die : Z) : list Z := replicate (Z.to_nat die) 1.

(** A fresh zero-filled array of the given length. *)
Definition zeros (len : Z) : list Z := replicate (Z.to_nat len) 0.

(** [this.triangle[n][k] += v].  Reading a missing row or a cell past the end
    yields [undefined], and [undefined + v] throws before anything is
    written. *)
Definition add_assign (n : Z) (k : nat) (v : Z) (tri : triangle)
  : outcome unit * triangle :=
  match tri !! n with
  | None => (Throw TypeError, tri)
  | Some t =>
      match cells t !! k with
      | None => (Throw TypeError, tri)
      | Some old => (Ok tt, <[n := store t k (old + v)]> tri)
      end
  end.

(** The inner loop [for (j = 0; j < right.length; j++)], entered at index [j]
    with the cells [right[j..]] still to visit. *)
Fixpoint inner_loop (n : Z) (i : nat) (li : Z) (j : nat) (rs : list Z)
    (tri : triangle) : outcome unit * triangle :=
  match rs with
  | [] => (Ok tt, tri)
  | rj :: rs' =>
      match add_assign n (i + j) (li * rj) tri with
      | (Ok _, tri') => inner_loop n i li (S j) rs' tri'
      | (Throw e, tri') => (Throw e, tri')
      end
  end.

(** The outer loop [for (i = 0; i < left.length; i++)], entered at index [i]
    with the cells [left[i..]] still to visit. *)
Fixpoint outer_loop (n : Z) (i : nat) (ls : list Z) (rgt : list Z)
    (tri : triangle) : outcome unit * triangle :=
  match ls with
  | [] => (Ok tt, tri)
  | li :: ls' =>
      match inner_loop n i li 0 rgt tri with
      | (Ok _, tri') => outer_loop n (S i) ls' rgt tri'
      | (Throw e, tri') => (Throw e, tri')
      end
  end.

(** [return this.triangle[n]]. *)
Definition return_row (n : Z) (tri : triangle) : outcome row * triangle :=
  match tri !! n with
  | Some r => (Ok r, tri)
  | None => (Throw TypeError, tri)
  end.

(** [pascal(n)] with the current value [die] of the [die] getter, on the
    cache [tri].  The result pairs what the call returns or throws with the
    cache it leaves behind (a throw does not undo the writes made before it).
    [n >> 1] is reached only with [2 <= n] and [n * die <= 1000] and a
    non-negative row length, hence [n <= 1000], where the 32-bit shift is
    [Z.shiftr]. *)
Fixpoint pascal_rec (fuel : nat) (die n : Z) (tri : triangle)
  : outcome row * triangle :=
  if n <? 1 then (Throw InvalidArgument, tri)
  else match tri !! n with
  | Some _ => return_row n tri
  | None =>
      if n =? 1 then
        return_row n (<[n := BigInt64Array (ones die)]> tri)
      else if n * die >? 1000 then (Throw ComputationTooLarge, tri)
      else
        let len := (die - 1) * n + 1 in
        if len <? 0 then (Throw RangeError, tri)
        else
          let fresh := if n <? 27 then BigInt64Array (zeros len)
                       else BigIntArray (zeros len) in
          let tri1 := <[n := fresh]> tri in
          match fuel with
          | O => (Throw OutOfFuel, tri1)
          | S fuel' =>
              match pascal_rec fuel' die (Z.shiftr n 1) tri1 with
              | (Throw e, tri2) => (Throw e, tri2)
              | (Ok lft, tri2) =>
                  match pascal_rec fuel' die (n - Z.shiftr n 1) tri2 with
                  | (Throw e, tri3) => (Throw e, tri3)
                  | (Ok rgt, tri3) =>
                      match outer_loop n 0 (cells lft) (cells rgt) tri3 with
                      | (Throw e, tri4) => (Throw e, tri4)
                      | (Ok _, tri4) => return_row n tri4
                      end
                  end
              end
          end
  end.

(** The recursion halves [n], so [n] units of fuel are more than enough
    (see [pascal_rec_fuel]). *)
Definition pascal (die n : Z) (tri : triangle) : outcome row * triangle :=
  pascal_rec (Z.to_nat n) die n tri.

(** [row(n)] on a fresh engine. *)
Definition row_fresh (die n : Z) : outcome row := (pascal die n ∅).1.

(** ** Reading rows as coefficient sequences *)

(** The coefficient of [x^m] in the polynomial whose coefficients are [l];
    zero outside [0 .. length l - 1]. *)
Definition coef (l : list Z) (m : Z) : Z :=
  if m <? 0 then 0 else nth (Z.to_nat m) l 0.

(** [zsum f n = f 0 + ... + f (n - 1)]. *)
Fixpoint zsum (f : nat -> Z) (n : nat) : Z :=
  match n with
  | O => 0
  | S n' => zsum f n' + f n'
  end.

(** The coefficient of [x^k] in the product of the polynomials [ls] and
    [rs]. *)
Definition conv_coef (ls rs : list Z) (k : Z) : Z :=
  zsum (fun a => coef ls (Z.of_nat a) * coef rs (k - Z.of_nat a)) (length ls).

(** A row read backwards is the same row. *)
Definition palindromic (c : list Z) : Prop :=
  forall m : Z, coef c (Z.of_nat (length c) - 1 - m) = coef c m.

(** How a row normalises a value stored into it, and a row of the same kind
    with other cells. *)
Definition wrap_of (t : row) : Z -> Z :=
  match t with
  | BigInt64Array _ => asIntN64
  | BigIntArray _ => fun z => z
  end.

Definition with_cells (t : row) (c : list Z) : row :=
  match t with
  | BigInt64Array _ => BigInt64Array c
  | BigIntArray _ => BigIntArray c
  end.

(** The two loops as functions on the cells of the row they update: [axpy]
    is one pass of the inner loop from offset [off], [conv_acc] the outer
    loop from index [i]. *)
Fixpoint axpy (w : Z -> Z) (off : nat) (a : Z) (rs c : list Z) : list Z :=
  match rs with
  | [] => c
  | r :: rs' => axpy w (S off) a rs' (<[off := w (nth off c 0 + a * r)]> c)
  end.

Fixpoint conv_acc (w : Z -> Z) (i : nat) (ls rs c : list Z) : list Z :=
  match ls with
  | [] => c
  | l :: ls' => conv_acc w (S i) ls' rs (axpy w i l rs c)
  end.

(** The two facts about a row's normalisation the loops rely on, and the
    cells that are already normalised. *)
Definition additive (w : Z -> Z) : Prop :=
  w 0 = 0 /\ forall x y, w (w x + y) = w (x + y).

Definition normal (w : Z -> Z) (c : list Z) : Prop :=
  forall m, w (coef c m) = coef c m.

(** The row a call allocates at index [n] before it fills it, and the row
    the loops turn it into from the rows [lft] and [rgt]. *)
Definition fresh_row (die n : Z) : row :=
  if n <? 27 then BigInt64Array (zeros ((die - 1) * n + 1))
  else BigIntArray (zeros ((die - 1) * n + 1)).

Definition product_row (die n : Z) (lft rgt : row) : row :=
  with_cells (fresh_row die n)
    (conv_acc (wrap_of (fresh_row die n)) 0 (cells lft) (cells rgt)
       (cells (fresh_row die n))).

(** A property of rows, by index, that holds of every row in the cache; and
    the caches met in the middle of a call for index [n], where rows above
    [n] may still be waiting to be filled. *)
Definition cache_all (P : Z -> row -> Prop) (tri : triangle) : Prop :=
  forall k r, tri !! k = Some r -> P k r.

Definition settled (P : Z -> row -> Prop) (n : Z) (tri : triangle) : Prop :=
  forall k r, tri !! k = Some r -> P k r \/ n < k.

(** What the cache of an engine with [die] faces holds at index [k]: a row of
    [(die-1)*k+1] cells that reads the same in both directions. *)
Definition good (die k : Z) (r : row) : Prop :=
  length (cells r) = Z.to_nat ((die - 1) * k + 1) /\ palindromic (cells r).

Definition cache_good (die : Z) (tri : triangle) : Prop :=
  cache_all (good die) tri.

(** The indices a cache of an engine with [die] faces can hold. *)
Definition cache_dom (die : Z) (tri : triangle) : Prop :=
  forall k, is_Some (tri !! k) -> k = 1 \/ (2 <= k /\ k * die <= 1000).

(** The caches an engine with a fixed [die] can be in: empty at
    construction, then whatever a call of [pascal], returning or throwing,
    leaves behind. *)
Inductive reachable (die : Z) : triangle -> Prop :=
  | reach_new : reachable die ∅
  | reach_call n tri : reachable die tri -> reachable die (pascal die n tri).2.

(** ** The coefficients the rows stand for *)

(** Polynomials over [Z] as coefficient lists, lowest degree first. *)
Fixpoint poly_add (p q : list Z) : list Z :=
  match p, q with
  | [], _ => q
  | _, [] => p
  | a :: p', b :: q' => (a + b) :: poly_add p' q'
  end.

Fixpoint poly_mul (p q : list Z) : list Z :=
  match p with
  | [] => []
  | a :: p' => poly_add (map (Z.mul a) q) (0 :: poly_mul p' q)
  end.

Fixpoint poly_pow (p : list Z) (n : nat) : list Z :=
  match n with
  | O => [1]
  | S n' => poly_mul p (poly_pow p n')
  end.

(** The coefficients of [(1 + x + ... + x^(die-1))^n]. *)
Definition exact_row (die n : Z) : list Z :=
  poly_pow (ones die) (Z.to_nat n).

(** The coefficients of the rows that [pascal] keeps in 64-bit cells all fit
    in 64 bits; and the same as a test. *)
Definition fits (die : Z) : Prop :=
  forall n, 1 <= n < 27 -> n * die <= 1000 -> normal asIntN64 (exact_row die n).

Definition fits_check (die : Z) : bool :=
  forallb (fun n => forallb (fun c => asIntN64 c =? c)
                      (exact_row die (Z.of_nat n)))
    (seq 1 26).

(** A cached row that holds the coefficients themselves. *)
Definition exact (die k : Z) (r : row) : Prop :=
  1 <= k /\ cells r = exact_row die k.

(** A cached row that holds the coefficients up to multiples of [2^64],
    reduced to signed 64-bit values where the row is a typed array. *)
Definition modular (die k : Z) (r : row) : Prop :=
  1 <= k
  /\ length (cells r) = Z.to_nat ((die - 1) * k + 1)
  /\ (forall m, asIntN64 (coef (cells r) m)
                = asIntN64 (coef (exact_row die k) m))
  /\ (k < 27 -> normal asIntN64 (cells r)).

(** The sum of the entries of a row. *)
Definition row_sum (c : list Z) : Z := fold_right Z.add 0 c.

(** ** The rest of the widget's arithmetic *)

(** The row of index [n] as the recursion builds it when it finds nothing
    in the cache. *)
Fixpoint built_row (fuel : nat) (die n : Z) : row :=
  if n <=? 1 then BigInt64Array (ones die)
  else
    match fuel with
    | O => BigInt64Array (ones die)
    | S fuel' =>
        product_row die n (built_row fuel' die (Z.shiftr n 1))
          (built_row fuel' die (n - Z.shiftr n 1))
    end.

(** A cached row that is the one built from nothing. *)
Definition canonical (die k : Z) (r : row) : Prop :=
  1 <= k /\ good die k r /\ r = built_row (Z.to_nat k) die k.

(** [connectedCallback], lines 55-56:
    [for (let i = 1; i <= parseInt(precompute); i++) this.pascal(i)].
    [precompute_from] is the loop entered at [i] with [todo] rounds to go;
    a throw of [pascal] leaves it.  The limit is what [parseInt] makes of
    the attribute, [None] for [NaN], where the test [i <= NaN] fails at
    once. *)
Fixpoint precompute_from (die i : Z) (todo : nat) (tri : triangle)
  : outcome unit * triangle :=
  match todo with
  | O => (Ok tt, tri)
  | S todo' =>
      match pascal die i tri with
      | (Throw e, tri') => (Throw e, tri')
      | (Ok _, tri') => precompute_from die (i + 1) todo' tri'
      end
  end.

Definition precompute (die : Z) (limit : option Z) (tri : triangle)
  : outcome unit * triangle :=
  match limit with
  | None => (Ok tt, tri)
  | Some p => precompute_from die 1 (Z.to_nat p) tri
  end.

(** The getter [die], [parseInt(this.getAttribute("die")) || 2], from what
    [parseInt] makes of the attribute ([None] for [NaN], which a missing
    attribute gives as well): zero and [NaN] are falsy and give 2. *)
Definition get_die (attr : option Z) : Z :=
  match attr with
  | Some d => if d =? 0 then 2 else d
  | None => 2
  end.

(** [draw], line 193: the bar of index [i] gets a label under it when
    [i % ((dist.length >> 4) + 1) == 0]. *)
Definition label_step (len : Z) : Z := Z.shiftr len 4 + 1.

Definition labelled (len i : Z) : bool := Z.rem i (label_step len) =? 0.

(** Binomial coefficients, by Pascal's rule. *)
Fixpoint choose (n k : nat) : Z :=
  match n, k with
  | _, O => 1
  | O, S _ => 0
  | S n', S k' => choose n' k' + choose n' k
  end.

End Binom.

(** ** The [Normal] object *)

#[local] Set Warnings "-inexact-float".

Module Normal.
Local Open Scope float_scope.

(** [Math.SQRT2], [Math.PI] and the tolerance of the Newton iteration: the
    binary64 values nearest to the decimal literals. *)
Definition SQRT2 : float := 1.4142135623730951.
Definition PI : float := 3.141592653589793.
Definition tolerance : float := 2.3e-16.

(** [Number.EPSILON], [2^-52]. *)
Definition EPSILON : float := 0x1p-52.

(** The five coefficient rows [as] of [erfc]. *)
Definition coefficients : list (float * float * float * float) :=
  [ (2.71078540045147805, 5.80755613130301624,
     3.47954057099518960, 12.06166887286239555);
    (3.47469513777439592, 12.07402036406381411,
     3.72068443960225092, 8.44319781003968454);
    (4.00561509202259545, 9.30596659485887898,
     3.90225704029924078, 6.36161630953880464);
    (5.16722705817812584, 9.12661617673673262,
     4.03296893109262491, 5.13578530585681539);
    (5.95908795446633271, 9.19435612886969243,
     4.11240942957450885, 4.48640329523408675) ].

(** What [probit] does: it throws, or it returns [x] after [steps]
    executions of the body of its loop ([steps] is [0] when it returns
    before the loop). *)
Inductive result : Type :=
  | Returned (x : float) (steps : nat)
  | InvalidArgument.

(** The variables of the Newton loop. *)
Record newton_state : Type :=
  { nx : float; nfx : float; cnt : nat }.

Section WithExp.

(** [Math.exp], which the language leaves to the host. *)
Variable exp : float -> float.

(** [erfc] past its first test: the saturation at 30 and the rational
    approximation, [res] running through the five rows in order. *)
Definition erfc_tail (x : float) : float :=
  if 30 <=? x then 0
  else
    fold_left
      (fun res '(a0, a1, a2, a3) =>
         res * (((x + a0) * x + a1) / ((x + a2) * x + a3)))
      coefficients
      (exp ((- x) * x) * 0.56418958354775629 / (x + 2.06955023132914151)).

(** [erfc].  The recursive call [erfc(-x)] of the reflection branch is
    unfolded once: its argument is not below zero, so it goes straight to
    [erfc_tail] ([erfc_unfold] proves the recursive equation of the
    source). *)
Definition erfc (x : float) : float :=
  if x <? 0 then 2 - erfc_tail (- x) else erfc_tail x.

Definition erf (x : float) : float := 1 - erfc x.
Definition pdf (x : float) : float := exp ((- x) * x / 2) / sqrt (2 * PI).
Definition cdf (x : float) : float := erfc ((- x) / SQRT2) / 2.
Definition cdfc (x : float) : float := erfc (x / SQRT2) / 2.

(** The loop of [probit]: its state on entry, its test and its body. *)
Definition newton_init (y : float) : newton_state :=
  {| nx := 0; nfx := cdf 0 - y; cnt := 0 |}.

Definition newton_test (s : newton_state) : bool :=
  (tolerance <? abs (nfx s)) && (cnt s <? 40)%nat.

Definition newton_body (y : float) (s : newton_state) : newton_state :=
  let x := nx s - nfx s / pdf (nx s) in
  {| nx := x; nfx := cdf x - y; cnt := S (cnt s) |}.

(** The runs of [for (...; test; ...) body]: from [s] the loop ends in
    [s']. *)
Inductive newton_loop (y : float) : newton_state -> newton_state -> Prop :=
  | loop_exit s : newton_test s = false -> newton_loop y s s
  | loop_iter s s' :
      newton_test s = true ->
      newton_loop y (newton_body y s) s' ->
      newton_loop y s s'.

(** The state after [k] executions of the loop body. *)
Definition iterate (y : float) (k : nat) : newton_state :=
  Nat.iter k (newton_body y) (newton_init y).

(** The loop as a function, by recursion on [budget], the number of
    iterations the counter still allows ([40 - cnt]).  With the budget used
    up the counter stands at 40 and the test fails, so the branch for an
    exhausted budget is never taken ([newton_run_spec]). *)
Fixpoint newton_run (budget : nat) (y : float) (s : newton_state)
  : newton_state :=
  if newton_test s then
    match budget with
    | O => s
    | S budget' => newton_run budget' y (newton_body y s)
    end
  else s.

Definition probit (y : float) : result :=
  if (y <? 0) || (1 <? y) then InvalidArgument
  else if y =? 0 then Returned neg_infinity 0
  else if y =? 1 then Returned infinity 0
  else
    let s := newton_run 40 y (newton_init y) in
    Returned (nx s) (cnt s).

End WithExp.

(** A concrete exponential to run the functions with: the Taylor polynomial
    of degree 24 in Horner form. *)
Definition exp_series (x : float) : float :=
  fold_right (fun k acc => 1 + x / k * acc) 1
    [1; 2; 3; 4; 5; 6; 7; 8; 9; 10; 11; 12;
     13; 14; 15; 16; 17; 18; 19; 20; 21; 22; 23; 24].

(** ** The widget around [Normal] *)

(** The getters [left] and [right]: the attribute through [parseFloat],
    with [NaN] (which a missing attribute gives as well) standing for the
    open end. *)
Definition get_left (a : float) : float :=
  if is_nan a then neg_infinity else a.

Definition get_right (a : float) : float :=
  if is_nan a then infinity else a.

(** The getter [prob], from what [parseFloat] makes of the two
    attributes. *)
Definition prob (exp : float -> float) (left_attr right_attr : float)
  : float :=
  cdf exp (get_right right_attr) - cdf exp (get_left left_attr).

(** [!!v] used as a shift count. *)
Definition truthy (v : Z) : Z := if (v =? 0)%Z then 0%Z else 1%Z.

(** [draw_axes]: what the length of the tick at the integer [x] is divided
    by, [1 << (cls & 1) << !!(cls & 3) << !!(cls & 7)] with
    [cls = x % 8]. *)
Definition tick_divisor (x : Z) : Z :=
  let cls := Z.rem x 8 in
  Z.shiftl (Z.shiftl (Z.shiftl 1 (Z.land cls 1)) (truthy (Z.land cls 3)))
    (truthy (Z.land cls 7)).

End Normal.


(** * Facts about [pascal] *)

Module BinomFacts.
Import Binom.

(** ** Arithmetic of [asIntN64] and of sums *)

Lemma asIntN64_0 : asIntN64 0 = 0.
Proof. reflexivity. Qed.

Lemma asIntN64_add_l x y : asIntN64 (asIntN64 x + y) = asIntN64 (x + y).
Proof.
  unfold asIntN64. f_equal.
  replace ((x + 2 ^ 63) mod 2 ^ 64 - 2 ^ 63 + y + 2 ^ 63)
    with ((x + 2 ^ 63) mod 2 ^ 64 + y) by lia.
  rewrite Zplus_mod_idemp_l. f_equal. lia.
Qed.

Lemma wrap_of_additive t : additive (wrap_of t).
Proof.
  destruct t; split; simpl; auto using asIntN64_0, asIntN64_add_l.
Qed.

Lemma additive_idem w x : additive w -> w (w x) = w x.
Proof.
  intros [_ H]. generalize (H x 0). now rewrite !Z.add_0_r.
Qed.

Lemma zsum_ext f g n :
  (forall a, (a < n)%nat -> f a = g a) -> zsum f n = zsum g n.
Proof.
  induction n as [|n IH]; intros H; simpl; [reflexivity|].
  rewrite IH, (H n) by (intros; try apply H; lia). reflexivity.
Qed.

Lemma zsum_shift f n : zsum f (S n) = f O + zsum (fun a => f (S a)) n.
Proof.
  induction n as [|n IH]; [simpl; lia|].
  change (zsum f (S (S n))) with (zsum f (S n) + f (S n)).
  rewrite IH. simpl. lia.
Qed.

Lemma zsum_rev f n : zsum f n = zsum (fun a => f (n - 1 - a)%nat) n.
Proof.
  induction n as [|n IH]; [reflexivity|].
  rewrite (zsum_shift (fun a => f (S n - 1 - a)%nat)).
  change (zsum f (S n)) with (zsum f n + f n).
  replace (S n - 1 - 0)%nat with n by lia.
  rewrite IH, Z.add_comm. f_equal.
  apply zsum_ext. intros a Ha. f_equal. lia.
Qed.

(** ** [coef] against list lookup *)

Lemma coef_neg l m : m < 0 -> coef l m = 0.
Proof. intros H. unfold coef. now rewrite (proj2 (Z.ltb_lt _ _) H). Qed.

Lemma coef_nat l (k : nat) : coef l (Z.of_nat k) = nth k l 0.
Proof.
  unfold coef. rewrite (proj2 (Z.ltb_ge _ _)) by lia. now rewrite Nat2Z.id.
Qed.

Lemma coef_beyond l m : Z.of_nat (length l) <= m -> coef l m = 0.
Proof.
  intros H. rewrite <- (Z2Nat.id m) by lia. rewrite coef_nat.
  apply nth_overflow. lia.
Qed.

Lemma coef_lookup (l : list Z) (k : nat) x :
  l !! k = Some x -> coef l (Z.of_nat k) = x.
Proof. intros H. rewrite coef_nat, nth_lookup, H. reflexivity. Qed.

Lemma lookup_coef (l : list Z) (k : nat) :
  (k < length l)%nat -> l !! k = Some (coef l (Z.of_nat k)).
Proof.
  intros H. destruct (lookup_lt_is_Some_2 l k H) as [x Hx].
  now rewrite (coef_lookup _ _ _ Hx).
Qed.

Lemma coef_nil m : coef [] m = 0.
Proof. unfold coef. destruct (m <? 0); [reflexivity|]. now destruct (Z.to_nat m). Qed.

Lemma coef_cons_0 x l : coef (x :: l) 0 = x.
Proof. reflexivity. Qed.

Lemma coef_cons_pos x l m : 0 < m -> coef (x :: l) m = coef l (m - 1).
Proof.
  intros H. unfold coef.
  rewrite !(proj2 (Z.ltb_ge _ _)) by lia.
  replace (Z.to_nat m) with (S (Z.to_nat (m - 1))) by lia. reflexivity.
Qed.

Lemma coef_insert (l : list Z) (k : nat) x m :
  (k < length l)%nat ->
  coef (<[k := x]> l) m = if m =? Z.of_nat k then x else coef l m.
Proof.
  intros Hk. destruct (Z.eqb_spec m (Z.of_nat k)) as [->|Hne].
  - apply coef_lookup. now apply list_lookup_insert_eq.
  - destruct (Z.ltb_spec m 0) as [Hm|Hm]; [now rewrite !coef_neg|].
    rewrite <- (Z2Nat.id m) by lia. rewrite !coef_nat, !nth_lookup.
    rewrite list_lookup_insert_ne by lia. reflexivity.
Qed.

Lemma coef_replicate_0 n m : coef (replicate n 0) m = 0.
Proof.
  unfold coef. destruct (m <? 0); [reflexivity|].
  rewrite nth_lookup.
  destruct (replicate n 0 !! Z.to_nat m) eqn:E; [|reflexivity].
  apply lookup_replicate in E. simpl. tauto.
Qed.

(** ** The loops on the cells of the target row *)

Lemma length_zeros len : length (zeros len) = Z.to_nat len.
Proof. apply length_replicate. Qed.

Lemma coef_zeros len m : coef (zeros len) m = 0.
Proof. apply coef_replicate_0. Qed.

Lemma normal_zeros w len : additive w -> normal w (zeros len).
Proof.
  intros [H0 _] m. unfold zeros. now rewrite coef_replicate_0.
Qed.

Lemma axpy_length w a rs : forall off c, length (axpy w off a rs c) = length c.
Proof.
  induction rs as [|r rs IH]; intros off c; simpl; [reflexivity|].
  now rewrite IH, length_insert.
Qed.

Lemma axpy_coef w a rs :
  additive w ->
  forall off c, (off + length rs <= length c)%nat -> normal w c ->
  forall m, coef (axpy w off a rs c) m
            = w (coef c m + a * coef rs (m - Z.of_nat off)).
Proof.
  intros Hw. induction rs as [|r rs IH]; intros off c Hlen Hn m; simpl.
  - now rewrite coef_nil, Z.mul_0_r, Z.add_0_r, Hn.
  - simpl in Hlen.
    set (c1 := <[off := w (nth off c 0 + a * r)]> c).
    assert (Hc1 : forall m', coef c1 m'
              = if m' =? Z.of_nat off then w (coef c m' + a * r) else coef c m').
    { intros m'. unfold c1. rewrite coef_insert by lia.
      destruct (Z.eqb_spec m' (Z.of_nat off)) as [->|]; [|reflexivity].
      now rewrite coef_nat. }
    assert (Hn1 : normal w c1).
    { intros m'. rewrite Hc1. destruct (m' =? Z.of_nat off); [|apply Hn].
      now apply additive_idem. }
    rewrite IH; [| unfold c1; rewrite length_insert; lia | exact Hn1].
    rewrite Hc1. destruct Hw as [_ Hadd].
    destruct (Z.eqb_spec m (Z.of_nat off)) as [->|Hne].
    + rewrite Z.sub_diag, coef_cons_0, (coef_neg rs) by lia.
      now rewrite Hadd, Z.mul_0_r, Z.add_0_r.
    + destruct (Z.ltb_spec (m - Z.of_nat off) 0) as [Hlt|Hge].
      * now rewrite (coef_neg rs), (coef_neg (r :: rs)) by lia.
      * rewrite (coef_cons_pos r) by lia.
        now replace (m - Z.of_nat (S off)) with (m - Z.of_nat off - 1) by lia.
Qed.

Lemma axpy_normal w a rs off c :
  additive w -> (off + length rs <= length c)%nat -> normal w c ->
  normal w (axpy w off a rs c).
Proof.
  intros Hw Hlen Hn m. rewrite axpy_coef by assumption.
  now apply additive_idem.
Qed.

Lemma conv_acc_length w rs ls :
  forall i c, length (conv_acc w i ls rs c) = length c.
Proof.
  induction ls as [|l ls IH]; intros i c; simpl; [reflexivity|].
  now rewrite IH, axpy_length.
Qed.

Lemma conv_acc_coef w rs :
  additive w ->
  forall ls i c,
    (ls <> [] -> (i + length ls + length rs <= length c + 1)%nat) ->
    normal w c ->
    forall m, coef (conv_acc w i ls rs c) m
      = w (coef c m
           + zsum (fun a => coef ls (Z.of_nat a)
                            * coef rs (m - Z.of_nat i - Z.of_nat a))
                  (length ls)).
Proof.
  intros Hw. induction ls as [|l ls IH]; intros i c Hlen Hn m.
  - simpl. now rewrite Z.add_0_r, Hn.
  - specialize (Hlen ltac:(discriminate)). simpl in Hlen.
    cbn [conv_acc]. rewrite IH.
    + rewrite axpy_coef by (auto; lia).
      destruct Hw as [_ Hadd]. rewrite Hadd.
      cbn [length]. rewrite zsum_shift.
      change (Z.of_nat 0) with 0. rewrite coef_cons_0, Z.sub_0_r.
      rewrite <- Z.add_assoc. f_equal. f_equal. f_equal.
      apply zsum_ext. intros a _.
      rewrite (coef_cons_pos l) by lia.
      replace (Z.of_nat (S a) - 1) with (Z.of_nat a) by lia.
      now replace (m - Z.of_nat (S i) - Z.of_nat a)
        with (m - Z.of_nat i - Z.of_nat (S a)) by lia.
    + intros _. rewrite axpy_length. lia.
    + apply axpy_normal; auto; lia.
Qed.

(** ** The loops on the cache *)

Lemma cells_with_cells t c : cells (with_cells t c) = c.
Proof. now destruct t. Qed.

Lemma with_cells_cells t : with_cells t (cells t) = t.
Proof. now destruct t. Qed.

Lemma with_cells_twice t c c' : with_cells (with_cells t c) c' = with_cells t c'.
Proof. now destruct t. Qed.

Lemma wrap_of_with_cells t c : wrap_of (with_cells t c) = wrap_of t.
Proof. now destruct t. Qed.

Lemma store_with_cells t k v :
  store t k v = with_cells t (<[k := wrap_of t v]> (cells t)).
Proof. now destruct t. Qed.

Lemma inner_loop_ok n i li rs :
  forall j (tri : triangle) t,
    tri !! n = Some t ->
    (i + j + length rs <= length (cells t))%nat ->
    inner_loop n i li j rs tri
    = (Ok tt, <[n := with_cells t (axpy (wrap_of t) (i + j) li rs (cells t))]> tri).
Proof.
  induction rs as [|r rs IH]; intros j tri t Ht Hlen; simpl.
  - now rewrite with_cells_cells, insert_id.
  - simpl in Hlen. unfold add_assign. rewrite Ht.
    destruct (lookup_lt_is_Some_2 (cells t) (i + j)) as [old Hold]; [lia|].
    rewrite Hold.
    rewrite (IH (S j) _ (store t (i + j) (old + li * r)));
      [| apply lookup_insert_eq
       | rewrite store_with_cells, cells_with_cells, length_insert; lia].
    rewrite insert_insert_eq.
    rewrite store_with_cells, cells_with_cells, wrap_of_with_cells,
      with_cells_twice.
    rewrite nth_lookup, Hold. simpl.
    now replace (i + S j)%nat with (S (i + j)) by lia.
Qed.

Lemma outer_loop_ok n rs ls :
  forall i (tri : triangle) t,
    tri !! n = Some t ->
    (ls <> [] -> (i + length ls + length rs <= length (cells t) + 1)%nat) ->
    outer_loop n i ls rs tri
    = (Ok tt, <[n := with_cells t (conv_acc (wrap_of t) i ls rs (cells t))]> tri).
Proof.
  induction ls as [|l ls IH]; intros i tri t Ht Hlen; simpl.
  - now rewrite with_cells_cells, insert_id.
  - specialize (Hlen ltac:(discriminate)). simpl in Hlen.
    rewrite (inner_loop_ok n i l rs 0 tri t Ht) by lia.
    rewrite Nat.add_0_r.
    rewrite (IH (S i) _ (with_cells t (axpy (wrap_of t) i l rs (cells t))));
      [| apply lookup_insert_eq
       | intros _; rewrite cells_with_cells, axpy_length; lia].
    now rewrite insert_insert_eq, cells_with_cells, wrap_of_with_cells,
      with_cells_twice.
Qed.

(** ** Palindromes *)

Lemma coef_replicate x n m :
  coef (replicate n x) m = if (0 <=? m) && (m <? Z.of_nat n) then x else 0.
Proof.
  destruct (Z.leb_spec 0 m) as [H0|H0]; simpl; [|now apply coef_neg].
  destruct (Z.ltb_spec m (Z.of_nat n)) as [H1|H1].
  - rewrite <- (Z2Nat.id m) by lia. apply coef_lookup.
    apply lookup_replicate. split; [reflexivity|lia].
  - apply coef_beyond. now rewrite length_replicate.
Qed.

Lemma palindromic_replicate x n : palindromic (replicate n x).
Proof.
  intros m. rewrite length_replicate, !coef_replicate.
  destruct (Z.leb_spec 0 m), (Z.ltb_spec m (Z.of_nat n)),
    (Z.leb_spec 0 (Z.of_nat n - 1 - m)),
    (Z.ltb_spec (Z.of_nat n - 1 - m) (Z.of_nat n)); simpl; auto; lia.
Qed.

Lemma conv_coef_palindromic ls rs :
  palindromic ls -> palindromic rs ->
  forall m, conv_coef ls rs (Z.of_nat (length ls) + Z.of_nat (length rs) - 2 - m)
            = conv_coef ls rs m.
Proof.
  intros Hl Hr m. unfold conv_coef.
  rewrite (zsum_rev (fun a => coef ls (Z.of_nat a) * coef rs (m - Z.of_nat a))).
  apply zsum_ext. intros a Ha.
  rewrite <- (Hl (Z.of_nat a)), <- (Hr (m - Z.of_nat (length ls - 1 - a))).
  f_equal; f_equal; lia.
Qed.

(** The row the loops leave behind, started from zeros, holds the
    normalised product coefficients. *)
Lemma conv_acc_zeros_coef w ls rs len m :
  additive w ->
  (ls <> [] -> (length ls + length rs <= Z.to_nat len + 1)%nat) ->
  coef (conv_acc w 0 ls rs (zeros len)) m = w (conv_coef ls rs m).
Proof.
  intros Hw Hlen. rewrite conv_acc_coef; auto.
  - rewrite coef_zeros, Z.add_0_l. f_equal.
    apply zsum_ext. intros a _. now rewrite Z.sub_0_r.
  - now rewrite length_zeros.
  - now apply normal_zeros.
Qed.

Lemma conv_acc_zeros_palindromic w ls rs len :
  additive w -> ls <> [] ->
  palindromic ls -> palindromic rs ->
  Z.to_nat len = (length ls + length rs - 1)%nat ->
  palindromic (conv_acc w 0 ls rs (zeros len)).
Proof.
  intros Hw Hne Hl Hr Hlen m.
  assert (0 < length ls)%nat by (destruct ls; [congruence|simpl; lia]).
  rewrite conv_acc_length, length_zeros.
  rewrite !conv_acc_zeros_coef by (auto; intros; lia).
  rewrite <- (conv_coef_palindromic ls rs Hl Hr m).
  f_equal. f_equal. lia.
Qed.

(** ** What a call leaves in the cache *)

Lemma pascal_rec_eq fuel die n tri :
  pascal_rec fuel die n tri =
  if n <? 1 then (Throw InvalidArgument, tri)
  else match tri !! n with
  | Some _ => return_row n tri
  | None =>
      if n =? 1 then
        return_row n (<[n := BigInt64Array (ones die)]> tri)
      else if n * die >? 1000 then (Throw ComputationTooLarge, tri)
      else
        let len := (die - 1) * n + 1 in
        if len <? 0 then (Throw RangeError, tri)
        else
          let fresh := if n <? 27 then BigInt64Array (zeros len)
                       else BigIntArray (zeros len) in
          let tri1 := <[n := fresh]> tri in
          match fuel with
          | O => (Throw OutOfFuel, tri1)
          | S fuel' =>
              match pascal_rec fuel' die (Z.shiftr n 1) tri1 with
              | (Throw e, tri2) => (Throw e, tri2)
              | (Ok lft, tri2) =>
                  match pascal_rec fuel' die (n - Z.shiftr n 1) tri2 with
                  | (Throw e, tri3) => (Throw e, tri3)
                  | (Ok rgt, tri3) =>
                      match outer_loop n 0 (cells lft) (cells rgt) tri3 with
                      | (Throw e, tri4) => (Throw e, tri4)
                      | (Ok _, tri4) => return_row n tri4
                      end
                  end
              end
          end
  end.
Proof. destruct fuel; reflexivity. Qed.

Lemma return_row_cache n tri : (return_row n tri).2 = tri.
Proof. unfold return_row. now destruct (tri !! n). Qed.

Lemma return_row_hit n (tri : triangle) r :
  tri !! n = Some r -> return_row n tri = (Ok r, tri).
Proof. intros H. unfold return_row. now rewrite H. Qed.

(** The loops write to the row at index [n] only, and only if it exists. *)
Lemma add_assign_other n k v (tri : triangle) m :
  m <> n -> (add_assign n k v tri).2 !! m = tri !! m.
Proof.
  intros Hne. unfold add_assign.
  destruct (tri !! n) as [t|]; [|reflexivity].
  destruct (cells t !! k); [|reflexivity].
  simpl. now rewrite lookup_insert_ne.
Qed.

Lemma add_assign_dom n k v (tri : triangle) m :
  is_Some ((add_assign n k v tri).2 !! m) -> is_Some (tri !! m).
Proof.
  unfold add_assign.
  destruct (tri !! n) as [t|] eqn:Ht; [|auto].
  destruct (cells t !! k); [|auto]. simpl.
  destruct (decide (m = n)) as [->|Hne].
  - rewrite Ht. eauto.
  - now rewrite lookup_insert_ne.
Qed.

Lemma inner_loop_other n i li rs m :
  m <> n ->
  forall j (tri : triangle), (inner_loop n i li j rs tri).2 !! m = tri !! m.
Proof.
  intros Hne. induction rs as [|r rs IH]; intros j tri; simpl; [reflexivity|].
  pose proof (add_assign_other n (i + j) (li * r) tri m Hne) as H.
  destruct (add_assign n (i + j) (li * r) tri) as [[[]|e] tri']; simpl in *.
  - now rewrite IH.
  - assumption.
Qed.

Lemma inner_loop_dom n i li rs m :
  forall j (tri : triangle),
    is_Some ((inner_loop n i li j rs tri).2 !! m) -> is_Some (tri !! m).
Proof.
  induction rs as [|r rs IH]; intros j tri; simpl; [auto|].
  pose proof (add_assign_dom n (i + j) (li * r) tri m) as H.
  destruct (add_assign n (i + j) (li * r) tri) as [[[]|e] tri']; simpl in *.
  - intros H'. apply H. eapply IH, H'.
  - assumption.
Qed.

Lemma outer_loop_other n rs ls m :
  m <> n ->
  forall i (tri : triangle), (outer_loop n i ls rs tri).2 !! m = tri !! m.
Proof.
  intros Hne. induction ls as [|l ls IH]; intros i tri; simpl; [reflexivity|].
  pose proof (inner_loop_other n i l rs m Hne 0%nat tri) as H.
  destruct (inner_loop n i l 0 rs tri) as [[[]|e] tri']; simpl in *.
  - now rewrite IH.
  - assumption.
Qed.

Lemma outer_loop_dom n rs ls m :
  forall i (tri : triangle),
    is_Some ((outer_loop n i ls rs tri).2 !! m) -> is_Some (tri !! m).
Proof.
  induction ls as [|l ls IH]; intros i tri; simpl; [auto|].
  pose proof (inner_loop_dom n i l rs m 0%nat tri) as H.
  destruct (inner_loop n i l 0 rs tri) as [[[]|e] tri']; simpl in *.
  - intros H'. apply H. eapply IH, H'.
  - assumption.
Qed.

(** A row, once cached, stays in the cache as it is: no call evicts or
    overwrites it, whatever [die] and [n] are. *)
Lemma pascal_rec_keeps die fuel :
  forall n (tri : triangle) k r,
    tri !! k = Some r -> (pascal_rec fuel die n tri).2 !! k = Some r.
Proof.
  induction fuel as [|fuel IH]; intros n tri k r Hk; rewrite pascal_rec_eq;
    destruct (n <? 1); simpl; auto;
    destruct (tri !! n) eqn:Hn; rewrite ?return_row_cache; auto;
    assert (Hkn : k <> n) by congruence;
    (destruct (n =? 1); [now rewrite return_row_cache, lookup_insert_ne|]);
    destruct (n * die >? 1000); simpl; auto;
    destruct ((die - 1) * n + 1 <? 0); simpl; auto.
  - now rewrite lookup_insert_ne.
  - set (fresh := if n <? 27 then _ else _).
    assert (H1 : <[n := fresh]> tri !! k = Some r) by now rewrite lookup_insert_ne.
    apply (IH (Z.shiftr n 1)) in H1.
    destruct (pascal_rec fuel die (Z.shiftr n 1) _) as [[lft|e] tri2];
      simpl in *; auto.
    apply (IH (n - Z.shiftr n 1)) in H1.
    destruct (pascal_rec fuel die (n - Z.shiftr n 1) _) as [[rgt|e] tri3];
      simpl in *; auto.
    pose proof (outer_loop_other n (cells rgt) (cells lft) k Hkn 0%nat tri3) as H4.
    destruct (outer_loop n 0 (cells lft) (cells rgt) tri3) as [[[]|e] tri4];
      simpl in *; rewrite ?return_row_cache; congruence.
Qed.

(** The indices of the cached rows stay within what the guards let
    through. *)
Lemma pascal_rec_dom die fuel :
  forall n (tri : triangle),
    cache_dom die tri -> cache_dom die (pascal_rec fuel die n tri).2.
Proof.
  assert (Hins : forall n (tri : triangle) t,
             (n = 1 \/ 2 <= n /\ n * die <= 1000) ->
             cache_dom die tri -> cache_dom die (<[n := t]> tri)).
  { intros n tri t Hn Hd k. destruct (decide (k = n)) as [->|Hne]; [auto|].
    rewrite lookup_insert_ne by congruence. apply Hd. }
  induction fuel as [|fuel IH]; intros n tri Hd; rewrite pascal_rec_eq;
    destruct (Z.ltb_spec n 1); simpl; auto;
    destruct (tri !! n) eqn:Hn; rewrite ?return_row_cache; auto;
    (destruct (Z.eqb_spec n 1); [rewrite return_row_cache; now apply Hins; auto|]);
    destruct (n * die >? 1000) eqn:Hg; simpl; auto;
    destruct ((die - 1) * n + 1 <? 0); simpl; auto;
    assert (Hn' : n = 1 \/ 2 <= n /\ n * die <= 1000)
      by (rewrite Z.gtb_ltb in Hg; apply Z.ltb_ge in Hg; lia).
  - now apply Hins.
  - set (fresh := if n <? 27 then _ else _).
    pose proof (IH (Z.shiftr n 1) _ (Hins n tri fresh Hn' Hd)) as H2.
    destruct (pascal_rec fuel die (Z.shiftr n 1) _) as [[lft|e] tri2];
      simpl in *; auto.
    pose proof (IH (n - Z.shiftr n 1) _ H2) as H3.
    destruct (pascal_rec fuel die (n - Z.shiftr n 1) _) as [[rgt|e] tri3];
      simpl in *; auto.
    pose proof (outer_loop_dom n (cells rgt) (cells lft)) as H4.
    specialize (fun m => H4 m 0%nat tri3).
    destruct (outer_loop n 0 (cells lft) (cells rgt) tri3) as [[[]|e] tri4];
      simpl in *; rewrite ?return_row_cache; intros k Hk; apply H3, H4, Hk.
Qed.

(** ** Polynomial products *)

Lemma zsum_add f g n : zsum (fun a => f a + g a) n = zsum f n + zsum g n.
Proof. induction n as [|n IH]; simpl; [reflexivity|rewrite IH; lia]. Qed.

Lemma zsum_scale c f n : zsum (fun a => c * f a) n = c * zsum f n.
Proof. induction n as [|n IH]; simpl; [lia|rewrite IH; lia]. Qed.

Lemma zsum_zero f n : (forall a, (a < n)%nat -> f a = 0) -> zsum f n = 0.
Proof.
  induction n as [|n IH]; intros H; simpl; [reflexivity|].
  rewrite IH, H by (intros; try apply H; lia). reflexivity.
Qed.

Lemma zsum_app f a b :
  zsum f (a + b) = zsum f a + zsum (fun i => f (a + i)%nat) b.
Proof.
  induction b as [|b IH]; simpl.
  - rewrite Nat.add_0_r. lia.
  - rewrite Nat.add_succ_r. simpl. rewrite IH. lia.
Qed.

Lemma zsum_swap (f : nat -> nat -> Z) n m :
  zsum (fun i => zsum (fun j => f i j) m) n
  = zsum (fun j => zsum (fun i => f i j) n) m.
Proof.
  induction n as [|n IH]; simpl.
  - symmetry. now apply zsum_zero.
  - now rewrite IH, zsum_add.
Qed.

Lemma coef_cons x l m : coef (x :: l) m = if m =? 0 then x else coef l (m - 1).
Proof.
  destruct (Z.eqb_spec m 0) as [->|Hne]; [reflexivity|].
  destruct (Z.ltb_spec m 0); [now rewrite !coef_neg by lia|].
  apply coef_cons_pos. lia.
Qed.

Lemma coef_cons_zero l m : coef (0 :: l) m = coef l (m - 1).
Proof.
  rewrite coef_cons. destruct (Z.eqb_spec m 0) as [->|]; [|reflexivity].
  now rewrite coef_neg.
Qed.

Lemma coef_poly_add p : forall q m, coef (poly_add p q) m = coef p m + coef q m.
Proof.
  induction p as [|a p IH]; intros q m.
  - simpl. now rewrite coef_nil.
  - destruct q as [|b q]; [simpl; rewrite coef_nil; lia|].
    simpl. rewrite !coef_cons, IH. now destruct (m =? 0).
Qed.

Lemma coef_map_mul a q : forall m, coef (map (Z.mul a) q) m = a * coef q m.
Proof.
  induction q as [|b q IH]; intros m; simpl.
  - rewrite coef_nil. lia.
  - rewrite !coef_cons, IH. now destruct (m =? 0).
Qed.

Lemma poly_mul_coef p q : forall m, coef (poly_mul p q) m = conv_coef p q m.
Proof.
  induction p as [|a p IH]; intros m.
  - apply coef_nil.
  - cbn [poly_mul]. rewrite coef_poly_add, coef_map_mul, coef_cons_zero, IH.
    unfold conv_coef. cbn [length]. rewrite zsum_shift.
    change (Z.of_nat 0) with 0. rewrite coef_cons_0, Z.sub_0_r. f_equal.
    apply zsum_ext. intros i _.
    rewrite (coef_cons_pos a) by lia. f_equal; f_equal; lia.
Qed.

Lemma length_poly_add p : forall q,
  length (poly_add p q) = Nat.max (length p) (length q).
Proof.
  induction p as [|a p IH]; intros [|b q]; simpl; auto.
Qed.

Lemma length_poly_mul p q :
  q <> [] -> length (poly_mul p q) = (length p + length q - 1)%nat
             \/ (p = [] /\ poly_mul p q = []).
Proof.
  intros Hq. induction p as [|a p IH]; [now right|left].
  cbn [poly_mul]. rewrite length_poly_add, length_map. cbn [length].
  assert (0 < length q)%nat by (destruct q; [congruence|simpl; lia]).
  destruct IH as [->|[-> ->]]; simpl; lia.
Qed.

Lemma conv_coef_wide ls rs k N :
  (length ls <= N)%nat ->
  zsum (fun a => coef ls (Z.of_nat a) * coef rs (k - Z.of_nat a)) N
  = conv_coef ls rs k.
Proof.
  intros H. destruct (Nat.le_exists_sub _ _ H) as [d [-> _]].
  rewrite (Nat.add_comm d), zsum_app, (zsum_zero _ d); [unfold conv_coef; lia|].
  intros a _. rewrite coef_beyond by lia. lia.
Qed.

(** The inner sum of a triple product, cut down to the window where the
    middle factor lives. *)
Lemma zsum_window q r k (j N : nat) :
  (j + length q <= N)%nat ->
  zsum (fun i => coef q (Z.of_nat i - Z.of_nat j) * coef r (k - Z.of_nat i)) N
  = conv_coef q r (k - Z.of_nat j).
Proof.
  intros H. destruct (Nat.le_exists_sub _ _ H) as [d [-> _]].
  rewrite (Nat.add_comm d), zsum_app, zsum_app.
  rewrite (zsum_zero _ j), (zsum_zero _ d).
  - unfold conv_coef. rewrite Z.add_0_l, Z.add_0_r.
    apply zsum_ext. intros a _. f_equal; f_equal; lia.
  - intros a _. rewrite coef_beyond by lia. lia.
  - intros a Ha. rewrite coef_neg by lia. lia.
Qed.

Lemma conv_coef_assoc p q r k :
  q <> [] ->
  conv_coef (poly_mul p q) r k = conv_coef p (poly_mul q r) k.
Proof.
  intros Hq.
  rewrite <- (conv_coef_wide (poly_mul p q) r k (length p + length q)).
  2:{ destruct (length_poly_mul p q Hq) as [->|[_ ->]]; simpl; lia. }
  unfold conv_coef at 1.
  rewrite (zsum_ext _ (fun i => zsum (fun j =>
             coef p (Z.of_nat j)
             * (coef q (Z.of_nat i - Z.of_nat j) * coef r (k - Z.of_nat i)))
             (length p))).
  2:{ intros i _. rewrite poly_mul_coef. unfold conv_coef.
      rewrite Z.mul_comm, <- zsum_scale. apply zsum_ext. intros; lia. }
  rewrite zsum_swap. apply zsum_ext. intros j Hj.
  rewrite zsum_scale, zsum_window by lia.
  now rewrite poly_mul_coef.
Qed.

Lemma conv_coef_ext_r p q q' k :
  (forall m, coef q m = coef q' m) -> conv_coef p q k = conv_coef p q' k.
Proof. intros H. apply zsum_ext. intros a _. now rewrite H. Qed.

Lemma poly_pow_nonempty p n : p <> [] -> poly_pow p n <> [].
Proof.
  intros Hp. induction n as [|n IH]; [discriminate|]. simpl.
  destruct (length_poly_mul p (poly_pow p n) IH) as [H|[? _]]; [|congruence].
  intros E. rewrite E in H. simpl in H.
  assert (0 < length p)%nat by (destruct p; [congruence|simpl; lia]).
  assert (0 < length (poly_pow p n))%nat
    by (destruct (poly_pow p n); [congruence|simpl; lia]).
  lia.
Qed.

(** The product of two powers is the power of the sum. *)
Lemma conv_coef_poly_pow p a b k :
  p <> [] ->
  conv_coef (poly_pow p a) (poly_pow p b) k = coef (poly_pow p (a + b)) k.
Proof.
  intros Hp. revert k. induction a as [|a IH]; intros k.
  - unfold conv_coef. cbn [poly_pow length zsum Nat.add].
    change (Z.of_nat 0) with 0. rewrite coef_cons_0, Z.sub_0_r. lia.
  - cbn [poly_pow Nat.add].
    rewrite conv_coef_assoc by now apply poly_pow_nonempty.
    rewrite poly_mul_coef. apply conv_coef_ext_r.
    intros m. now rewrite poly_mul_coef, IH.
Qed.

Lemma poly_mul_one_r p : poly_mul p [1] = p.
Proof.
  induction p as [|a p IH]; [reflexivity|].
  cbn [poly_mul]. rewrite IH. simpl. f_equal. lia.
Qed.

Lemma list_eq_coef (l1 l2 : list Z) :
  length l1 = length l2 -> (forall m, coef l1 m = coef l2 m) -> l1 = l2.
Proof.
  intros Hlen H. apply list_eq. intros i.
  destruct (Nat.lt_ge_cases i (length l1)).
  - rewrite !lookup_coef by lia. now rewrite H.
  - rewrite !lookup_ge_None_2 by lia. reflexivity.
Qed.

(** ** The exact rows *)

Lemma ones_nonempty die : 1 <= die -> ones die <> [].
Proof.
  intros H E. apply (f_equal length) in E. unfold ones in E.
  rewrite length_replicate in E. simpl in E. lia.
Qed.

Lemma exact_row_1 die : exact_row die 1 = ones die.
Proof. unfold exact_row. simpl. apply poly_mul_one_r. Qed.

Lemma length_exact_row die n :
  1 <= die -> 0 <= n ->
  length (exact_row die n) = Z.to_nat ((die - 1) * n + 1).
Proof.
  intros Hd Hn. unfold exact_row.
  rewrite <- (Z2Nat.id n Hn) at 2. generalize (Z.to_nat n). clear n Hn.
  induction n as [|n IH]; [cbn [poly_pow length]; lia|]. cbn [poly_pow].
  destruct (length_poly_mul (ones die) (poly_pow (ones die) n)) as [->|[E _]].
  - now apply poly_pow_nonempty, ones_nonempty.
  - rewrite IH. unfold ones. rewrite length_replicate. nia.
  - now apply ones_nonempty in E.
Qed.

Lemma exact_row_product die n1 n2 m :
  1 <= die -> 0 <= n1 -> 0 <= n2 ->
  conv_coef (exact_row die n1) (exact_row die n2) m
  = coef (exact_row die (n1 + n2)) m.
Proof.
  intros Hd H1 H2. unfold exact_row.
  rewrite conv_coef_poly_pow by now apply ones_nonempty.
  now rewrite Z2Nat.inj_add.
Qed.

Lemma row_sum_poly_add p : forall q,
  row_sum (poly_add p q) = row_sum p + row_sum q.
Proof.
  induction p as [|a p IH]; intros [|b q]; simpl; try lia.
  unfold row_sum in *. simpl. rewrite IH. lia.
Qed.

Lemma row_sum_map_mul a q : row_sum (map (Z.mul a) q) = a * row_sum q.
Proof.
  unfold row_sum. induction q as [|b q IH]; simpl; [lia|rewrite IH; lia].
Qed.

Lemma row_sum_poly_mul p q : row_sum (poly_mul p q) = row_sum p * row_sum q.
Proof.
  induction p as [|a p IH]; [reflexivity|].
  cbn [poly_mul]. rewrite row_sum_poly_add, row_sum_map_mul.
  unfold row_sum in *. simpl. rewrite IH. lia.
Qed.

Lemma row_sum_ones die : 0 <= die -> row_sum (ones die) = die.
Proof.
  intros H. unfold ones. rewrite <- (Z2Nat.id die H) at 2.
  generalize (Z.to_nat die). intros n.
  unfold row_sum. induction n as [|n IH]; simpl; [reflexivity|].
  rewrite IH. lia.
Qed.

Lemma row_sum_exact_row die n :
  0 <= die -> 0 <= n -> row_sum (exact_row die n) = die ^ n.
Proof.
  intros Hd Hn. unfold exact_row.
  rewrite <- (Z2Nat.id n Hn) at 2. generalize (Z.to_nat n). clear n Hn.
  induction n as [|n IH]; [reflexivity|].
  cbn [poly_pow]. rewrite row_sum_poly_mul, IH, row_sum_ones by assumption.
  rewrite Nat2Z.inj_succ, Z.pow_succ_r by lia. reflexivity.
Qed.

(** ** Properties that every cached row has *)

Lemma shiftr_1_bounds n :
  2 <= n -> 1 <= Z.shiftr n 1 < n /\ 1 <= n - Z.shiftr n 1 < n.
Proof.
  intros Hn. rewrite Z.shiftr_div_pow2 by lia. change (2 ^ 1) with 2.
  pose proof (Z.div_mod n 2 ltac:(lia)).
  pose proof (Z.mod_pos_bound n 2 ltac:(lia)). lia.
Qed.

Lemma cells_fresh_row die n : cells (fresh_row die n) = zeros ((die - 1) * n + 1).
Proof. unfold fresh_row. now destruct (n <? 27). Qed.

Section RowInvariant.

Variable die : Z.
Variable P : Z -> row -> Prop.
Hypothesis Hdie : 1 <= die.
Hypothesis P_length :
  forall k r, P k r -> length (cells r) = Z.to_nat ((die - 1) * k + 1).
Hypothesis P_base : P 1 (BigInt64Array (ones die)).
Hypothesis P_product :
  forall n lft rgt,
    2 <= n -> n * die <= 1000 ->
    P (Z.shiftr n 1) lft -> P (n - Z.shiftr n 1) rgt ->
    P n (product_row die n lft rgt).

(** A call for [n] on a cache settled up to [n] returns a row with the
    property, and every row it adds to the cache has it. *)
Lemma pascal_rec_settles :
  forall fuel n (tri : triangle),
    (Z.to_nat n <= fuel)%nat ->
    settled P n tri ->
    (forall k r, (pascal_rec fuel die n tri).2 !! k = Some r ->
                 tri !! k = Some r \/ P k r)
    /\ (1 <= n -> n * die <= 1000 ->
        exists r, (pascal_rec fuel die n tri).1 = Ok r
                  /\ (pascal_rec fuel die n tri).2 !! n = Some r
                  /\ P n r).
Proof.
  induction fuel as [|fuel IH]; intros n tri Hfuel Hs;
    rewrite pascal_rec_eq;
    (destruct (Z.ltb_spec n 1); [split; [auto|lia]|]);
    (destruct (tri !! n) as [r0|] eqn:Hn;
      [rewrite (return_row_hit _ _ _ Hn); split; [auto|];
       intros _ _; exists r0; repeat split; auto;
       destruct (Hs n r0 Hn); [assumption|lia]|]);
    (destruct (Z.eqb_spec n 1) as [->|Hn1];
      [rewrite (return_row_hit 1 _ _ (lookup_insert_eq tri 1 _)); simpl; split;
        [intros k r; destruct (decide (k = 1)) as [->|];
          [rewrite lookup_insert_eq; intros [= <-]; auto
          |rewrite lookup_insert_ne by congruence; auto]
        |intros _ _; eexists; repeat split; [apply lookup_insert_eq|exact P_base]]|]);
    (destruct (n * die >? 1000) eqn:Hbig;
      [split; [auto|rewrite Z.gtb_ltb in Hbig; apply Z.ltb_lt in Hbig; lia]|]);
    rewrite Z.gtb_ltb in Hbig; apply Z.ltb_ge in Hbig; cbv zeta;
    (destruct (Z.ltb_spec ((die - 1) * n + 1) 0); [nia|]);
    [lia|].
  change (if n <? 27 then _ else _) with (fresh_row die n).
  set (fresh := fresh_row die n).
  destruct (shiftr_1_bounds n ltac:(lia)) as [B1 B2].
  set (n1 := Z.shiftr n 1) in *. set (n2 := n - n1) in *.
  assert (Hs1 : settled P n1 (<[n := fresh]> tri)).
  { intros k r. destruct (decide (k = n)) as [->|Hne].
    - right. lia.
    - rewrite lookup_insert_ne by congruence. intros Hk.
      destruct (Hs k r Hk); [auto|right; lia]. }
  destruct (IH n1 _ ltac:(lia) Hs1) as [Hnew1 Hok1].
  destruct (Hok1 ltac:(lia) ltac:(nia)) as (lft & E1 & _ & Pl).
  pose proof (pascal_rec_keeps die fuel n1 _ n fresh (lookup_insert_eq tri n fresh))
    as K1.
  destruct (pascal_rec fuel die n1 (<[n := fresh]> tri)) as [o1 tri2].
  simpl in E1, Hnew1, K1. subst o1.
  assert (Hs2 : settled P n2 tri2).
  { intros k r Hk. destruct (Hnew1 k r Hk) as [Hk1|]; [|auto].
    destruct (decide (k = n)) as [->|Hne]; [right; lia|].
    rewrite lookup_insert_ne in Hk1 by congruence.
    destruct (Hs k r Hk1); [auto|right; lia]. }
  destruct (IH n2 tri2 ltac:(lia) Hs2) as [Hnew2 Hok2].
  destruct (Hok2 ltac:(lia) ltac:(nia)) as (rgt & E2 & _ & Pr).
  pose proof (pascal_rec_keeps die fuel n2 _ n fresh K1) as K2.
  destruct (pascal_rec fuel die n2 tri2) as [o2 tri3].
  simpl in E2, Hnew2, K2. subst o2.
  rewrite (outer_loop_ok n (cells rgt) (cells lft) 0 tri3 fresh K2).
  2:{ intros _. rewrite (P_length _ _ Pl), (P_length _ _ Pr).
      unfold fresh. rewrite cells_fresh_row, length_zeros. unfold n2. nia. }
  rewrite (return_row_hit n _ _ (lookup_insert_eq tri3 n _)). simpl.
  assert (Pn : P n (product_row die n lft rgt))
    by (apply P_product; auto; lia).
  split.
  - intros k r. destruct (decide (k = n)) as [->|Hne].
    + rewrite lookup_insert_eq. intros [= <-]. now right.
    + rewrite lookup_insert_ne by congruence. intros Hk.
      destruct (Hnew2 k r Hk) as [Hk2|]; [|auto].
      destruct (Hnew1 k r Hk2) as [Hk1|]; [|auto].
      rewrite lookup_insert_ne in Hk1 by congruence. auto.
  - intros _ _. eexists. repeat split; [apply lookup_insert_eq|exact Pn].
Qed.

Lemma pascal_cache_all n (tri : triangle) :
  cache_all P tri -> cache_all P (pascal die n tri).2.
Proof.
  intros Hall k r Hk.
  destruct (pascal_rec_settles (Z.to_nat n) n tri (le_n _)) as [Hnew _].
  { intros k' r' Hk'. left. eauto. }
  destruct (Hnew k r Hk); eauto.
Qed.

Lemma pascal_returns n (tri : triangle) :
  cache_all P tri -> 1 <= n -> n * die <= 1000 ->
  exists r tri', pascal die n tri = (Ok r, tri') /\ P n r.
Proof.
  intros Hall Hn Hbig.
  destruct (pascal_rec_settles (Z.to_nat n) n tri (le_n _)) as [_ Hok].
  { intros k' r' Hk'. left. eauto. }
  destruct (Hok Hn Hbig) as (r & E & _ & Pr).
  unfold pascal. destruct (pascal_rec (Z.to_nat n) die n tri) as [o tri'].
  simpl in E. subst o. eauto.
Qed.

Lemma reachable_cache_all (tri : triangle) :
  reachable die tri -> cache_all P tri.
Proof.
  induction 1 as [|n tri _ IH].
  - intros k r. now rewrite lookup_empty.
  - now apply pascal_cache_all.
Qed.

End RowInvariant.

(** ** Rows of the right length that read the same both ways *)

Lemma good_ones die : 1 <= die -> good die 1 (BigInt64Array (ones die)).
Proof.
  intros Hd. split; simpl.
  - unfold ones. rewrite length_replicate. f_equal. lia.
  - apply palindromic_replicate.
Qed.

Lemma good_product die n (lft rgt : row) :
  1 <= die -> 2 <= n ->
  good die (Z.shiftr n 1) lft -> good die (n - Z.shiftr n 1) rgt ->
  good die n (product_row die n lft rgt).
Proof.
  intros Hd Hn [Hl Pl] [Hr Pr].
  destruct (shiftr_1_bounds n Hn) as [B1 B2].
  assert (Hlen : Z.to_nat ((die - 1) * n + 1)
                 = (length (cells lft) + length (cells rgt) - 1)%nat).
  { rewrite Hl, Hr. nia. }
  assert (Hne : cells lft <> []).
  { intros E. rewrite E in Hl. simpl in Hl. nia. }
  unfold product_row. split; rewrite cells_with_cells, cells_fresh_row.
  - now rewrite conv_acc_length, length_zeros.
  - apply conv_acc_zeros_palindromic; auto using wrap_of_additive.
Qed.

Lemma pascal_returns_good die n (tri : triangle) :
  1 <= die -> cache_good die tri -> 1 <= n -> n * die <= 1000 ->
  exists r tri', pascal die n tri = (Ok r, tri') /\ good die n r.
Proof.
  intros Hd. apply pascal_returns; auto using good_ones.
  - now intros k r [H _].
  - intros n' lft rgt Hn' _. now apply good_product.
Qed.

Lemma reachable_good die (tri : triangle) :
  1 <= die -> reachable die tri -> cache_good die tri.
Proof.
  intros Hd. apply reachable_cache_all; auto using good_ones.
  - now intros k r [H _].
  - intros n lft rgt Hn _. now apply good_product.
Qed.

Lemma reachable_dom die (tri : triangle) :
  reachable die tri -> cache_dom die tri.
Proof.
  induction 1 as [|n tri _ IH].
  - intros k [r Hr]. now rewrite lookup_empty in Hr.
  - now apply pascal_rec_dom.
Qed.

(** ** Rows that hold the coefficients themselves *)

Lemma fits_check_ok die : fits_check die = true -> fits die.
Proof.
  intros Hc n Hn _ m. unfold fits_check in Hc.
  rewrite forallb_forall in Hc.
  specialize (Hc (Z.to_nat n)). rewrite Z2Nat.id in Hc by lia.
  rewrite forallb_forall in Hc.
  destruct (Z.ltb_spec m 0) as [Hm|Hm]; [now rewrite coef_neg|].
  destruct (Z.ltb_spec m (Z.of_nat (length (exact_row die n)))) as [Hl|Hl];
    [|now rewrite coef_beyond].
  apply Z.eqb_eq, Hc.
  - apply in_seq. lia.
  - unfold coef. rewrite (proj2 (Z.ltb_ge _ _) Hm). apply nth_In. lia.
Qed.

Lemma exact_product die n (lft rgt : row) :
  1 <= die -> fits die -> 2 <= n -> n * die <= 1000 ->
  exact die (Z.shiftr n 1) lft -> exact die (n - Z.shiftr n 1) rgt ->
  exact die n (product_row die n lft rgt).
Proof.
  intros Hd Hfits Hn Hbig [H1 El] [H2 Er].
  split; [lia|]. unfold product_row.
  rewrite cells_with_cells, cells_fresh_row, El, Er.
  assert (Hlen : forall k, 0 <= k ->
            length (exact_row die k) = Z.to_nat ((die - 1) * k + 1))
    by (intros; now apply length_exact_row).
  apply list_eq_coef.
  - now rewrite conv_acc_length, length_zeros, Hlen by lia.
  - intros m. rewrite conv_acc_zeros_coef.
    + rewrite exact_row_product by lia.
      replace (Z.shiftr n 1 + (n - Z.shiftr n 1)) with n by lia.
      unfold fresh_row. destruct (Z.ltb_spec n 27); simpl; [|reflexivity].
      apply Hfits; lia.
    + apply wrap_of_additive.
    + intros _. rewrite !Hlen by lia. nia.
Qed.

Lemma pascal_returns_exact die n (tri : triangle) :
  1 <= die -> fits die -> cache_all (exact die) tri ->
  1 <= n -> n * die <= 1000 ->
  exists r tri', pascal die n tri = (Ok r, tri') /\ exact die n r.
Proof.
  intros Hd Hfits. apply pascal_returns; auto.
  - intros k r [Hk ->]. apply length_exact_row; lia.
  - split; [lia|]. simpl. now rewrite exact_row_1.
  - intros n' lft rgt. now apply exact_product.
Qed.

Lemma reachable_exact die (tri : triangle) :
  1 <= die -> fits die -> reachable die tri -> cache_all (exact die) tri.
Proof.
  intros Hd Hfits. apply reachable_cache_all; auto.
  - intros k r [Hk ->]. apply length_exact_row; lia.
  - split; [lia|]. simpl. now rewrite exact_row_1.
  - intros n' lft rgt. now apply exact_product.
Qed.

(** Where the coefficients of the rows below 27 fit in 64 bits, every row
    is exact and adds up to [die^n]. *)
Lemma pascal_exact_if_fits (die n : Z) (tri : triangle) :
  1 <= die -> fits die -> 1 <= n -> n * die <= 1000 -> reachable die tri ->
  exists r tri',
    pascal die n tri = (Ok r, tri')
    /\ cells r = exact_row die n
    /\ row_sum (cells r) = die ^ n.
Proof.
  intros Hd Hfits Hn Hbig Hreach.
  destruct (pascal_returns_exact die n tri) as (r & tri' & E & _ & Hr);
    auto using reachable_exact.
  exists r, tri'. repeat split; auto.
  rewrite Hr. apply row_sum_exact_row; lia.
Qed.

(** That is the case for dice of up to six faces, the dice the threshold
    27 is cut for. *)
Lemma fits_upto_6 die : 1 <= die <= 6 -> fits die.
Proof.
  intros H.
  assert (D : die = 1 \/ die = 2 \/ die = 3 \/ die = 4 \/ die = 5 \/ die = 6)
    by lia.
  destruct D as [->|[->|[->|[->|[->| ->]]]]];
    (apply fits_check_ok; vm_compute; reflexivity).
Qed.

Lemma pascal_exact_upto_6 (die n : Z) (tri : triangle) :
  1 <= die <= 6 -> 1 <= n -> n * die <= 1000 -> reachable die tri ->
  exists r tri',
    pascal die n tri = (Ok r, tri')
    /\ cells r = exact_row die n
    /\ row_sum (cells r) = die ^ n.
Proof.
  intros Hd. apply pascal_exact_if_fits; [lia|now apply fits_upto_6].
Qed.

(** With seven faces the coefficients of row 25 no longer fit. *)
Lemma fits_7_fails : ~ fits 7.
Proof.
  intros H. specialize (H 25 ltac:(lia) ltac:(lia) 75).
  vm_compute in H. discriminate.
Qed.

(** ** Rows that hold the coefficients modulo [2^64] *)

Lemma asIntN64_mod a b :
  asIntN64 a = asIntN64 b <-> a mod 2 ^ 64 = b mod 2 ^ 64.
Proof.
  unfold asIntN64. split; intros H.
  - assert (E : (a + 2 ^ 63) mod 2 ^ 64 = (b + 2 ^ 63) mod 2 ^ 64) by lia.
    rewrite <- (Z_mod_plus_full a 1), <- (Z_mod_plus_full b 1).
    replace (a + 1 * 2 ^ 64) with (a + 2 ^ 63 + 2 ^ 63) by lia.
    replace (b + 1 * 2 ^ 64) with (b + 2 ^ 63 + 2 ^ 63) by lia.
    now rewrite (Zplus_mod (a + 2 ^ 63)), E, <- Zplus_mod.
  - f_equal. now rewrite (Zplus_mod a), H, <- Zplus_mod.
Qed.

Lemma asIntN64_idem a : asIntN64 (asIntN64 a) = asIntN64 a.
Proof. generalize (asIntN64_add_l a 0). now rewrite !Z.add_0_r. Qed.

Lemma asIntN64_add_compat a a' b b' :
  asIntN64 a = asIntN64 a' -> asIntN64 b = asIntN64 b' ->
  asIntN64 (a + b) = asIntN64 (a' + b').
Proof.
  rewrite !asIntN64_mod. intros Ha Hb.
  now rewrite Zplus_mod, Ha, Hb, <- Zplus_mod.
Qed.

Lemma asIntN64_mul_compat a a' b b' :
  asIntN64 a = asIntN64 a' -> asIntN64 b = asIntN64 b' ->
  asIntN64 (a * b) = asIntN64 (a' * b').
Proof.
  rewrite !asIntN64_mod. intros Ha Hb.
  now rewrite Zmult_mod, Ha, Hb, <- Zmult_mod.
Qed.

Lemma asIntN64_zsum f g n :
  (forall a, (a < n)%nat -> asIntN64 (f a) = asIntN64 (g a)) ->
  asIntN64 (zsum f n) = asIntN64 (zsum g n).
Proof.
  induction n as [|n IH]; intros H; simpl; [reflexivity|].
  apply asIntN64_add_compat; [apply IH; intros; apply H; lia|apply H; lia].
Qed.

Lemma asIntN64_wrap_of t z : asIntN64 (wrap_of t z) = asIntN64 z.
Proof. destruct t; simpl; [apply asIntN64_idem|reflexivity]. Qed.

Lemma modular_ones die : 1 <= die -> modular die 1 (BigInt64Array (ones die)).
Proof.
  intros Hd. unfold modular. cbn [cells]. rewrite exact_row_1.
  split; [lia|]. split; [|split; [reflexivity|]].
  - unfold ones. rewrite length_replicate. f_equal. lia.
  - intros _ m. unfold ones. rewrite coef_replicate.
    now destruct (_ && _).
Qed.

Lemma modular_product die n (lft rgt : row) :
  1 <= die -> 2 <= n ->
  modular die (Z.shiftr n 1) lft -> modular die (n - Z.shiftr n 1) rgt ->
  modular die n (product_row die n lft rgt).
Proof.
  intros Hd Hn (H1 & Ll & Cl & _) (H2 & Lr & Cr & _).
  assert (Hc : forall m,
            coef (cells (product_row die n lft rgt)) m
            = wrap_of (fresh_row die n) (conv_coef (cells lft) (cells rgt) m)).
  { intros m. unfold product_row.
    rewrite cells_with_cells, cells_fresh_row.
    apply conv_acc_zeros_coef; [apply wrap_of_additive|].
    intros _. rewrite Ll, Lr. nia. }
  repeat split; [lia| | |].
  - unfold product_row.
    now rewrite cells_with_cells, conv_acc_length, cells_fresh_row, length_zeros.
  - intros m. rewrite Hc, asIntN64_wrap_of.
    assert (En : coef (exact_row die n) m
                 = conv_coef (exact_row die (Z.shiftr n 1))
                     (exact_row die (n - Z.shiftr n 1)) m).
    { rewrite exact_row_product by lia. do 2 f_equal. lia. }
    rewrite En. unfold conv_coef.
    rewrite Ll, <- (length_exact_row die (Z.shiftr n 1)) by lia.
    apply asIntN64_zsum. intros a _. now apply asIntN64_mul_compat.
  - intros H27 m. rewrite Hc. unfold fresh_row.
    rewrite (proj2 (Z.ltb_lt n 27) H27). simpl. apply asIntN64_idem.
Qed.

(** On every engine with a fixed [die], [row(n)] holds the coefficients of
    [(1 + x + ... + x^(die-1))^n] up to multiples of [2^64]; below
    [n = 27] its cells are those coefficients brought into the signed 64-bit
    range. *)
Lemma pascal_modulo_2_64 (die n : Z) (tri : triangle) :
  1 <= die -> 1 <= n -> n * die <= 1000 -> reachable die tri ->
  exists r tri',
    pascal die n tri = (Ok r, tri')
    /\ length (cells r) = Z.to_nat ((die - 1) * n + 1)
    /\ (forall m, asIntN64 (coef (cells r) m)
                  = asIntN64 (coef (exact_row die n) m))
    /\ (n < 27 -> forall m, coef (cells r) m
                            = asIntN64 (coef (exact_row die n) m)).
Proof.
  intros Hd Hn Hbig Hreach.
  assert (Hlen : forall k r, modular die k r ->
            length (cells r) = Z.to_nat ((die - 1) * k + 1))
    by (intros k r (_ & H & _); exact H).
  assert (Hprod : forall n lft rgt, 2 <= n -> n * die <= 1000 ->
            modular die (Z.shiftr n 1) lft ->
            modular die (n - Z.shiftr n 1) rgt ->
            modular die n (product_row die n lft rgt))
    by (intros; now apply modular_product).
  assert (Hall : cache_all (modular die) tri)
    by (apply (reachable_cache_all die (modular die) Hd Hlen
                 (modular_ones die Hd) Hprod); assumption).
  destruct (pascal_returns die (modular die) Hd Hlen (modular_ones die Hd)
              Hprod n tri Hall Hn Hbig) as (r & tri' & E & _ & Hl & Hc & Hnorm).
  exists r, tri'. repeat split; auto.
  intros H27 m. now rewrite <- Hc, (Hnorm H27 m).
Qed.

(** ** Fuel *)

(** The result of [pascal_rec] does not depend on the fuel, as long as there
    are [n] units of it: [pascal] never runs out. *)
Lemma pascal_rec_fuel die :
  forall fuel fuel' n (tri : triangle),
    (Z.to_nat n <= fuel)%nat -> (Z.to_nat n <= fuel')%nat ->
    pascal_rec fuel die n tri = pascal_rec fuel' die n tri.
Proof.
  induction fuel as [|fuel IH]; intros fuel' n tri H H';
    rewrite (pascal_rec_eq _ die n tri), (pascal_rec_eq fuel' die n tri);
    destruct (Z.ltb_spec n 1); auto;
    destruct (tri !! n); auto;
    destruct (Z.eqb_spec n 1); auto;
    destruct (n * die >? 1000); auto; cbv zeta;
    destruct ((die - 1) * n + 1 <? 0); auto; [lia|].
  destruct fuel' as [|fuel']; [lia|].
  destruct (shiftr_1_bounds n ltac:(lia)) as [B1 B2].
  rewrite (IH fuel' (Z.shiftr n 1)) by lia.
  destruct (pascal_rec fuel' die (Z.shiftr n 1) _) as [[lft|e] tri2]; auto.
  now rewrite (IH fuel' (n - Z.shiftr n 1)) by lia.
Qed.

Lemma pascal_never_out_of_fuel die n (tri : triangle) :
  (pascal die n tri).1 <> Throw OutOfFuel.
Proof.
  unfold pascal. generalize (le_n (Z.to_nat n)).
  generalize (Z.to_nat n) at 2 3 as fuel. intros fuel. revert n tri.
  induction fuel as [|fuel IH]; intros n tri H;
    rewrite pascal_rec_eq;
    destruct (Z.ltb_spec n 1); try discriminate;
    (destruct (tri !! n) eqn:Hn;
      [rewrite (return_row_hit _ _ _ Hn); discriminate|]);
    (destruct (Z.eqb_spec n 1) as [->|];
      [rewrite (return_row_hit 1 _ _ (lookup_insert_eq tri 1 _)); discriminate|]);
    destruct (n * die >? 1000); try discriminate; cbv zeta;
    destruct ((die - 1) * n + 1 <? 0); try discriminate; [lia|].
  destruct (shiftr_1_bounds n ltac:(lia)) as [B1 B2].
  pose proof (IH (Z.shiftr n 1) (<[n := fresh_row die n]> tri) ltac:(lia)) as H1.
  change (if n <? 27 then _ else _) with (fresh_row die n).
  destruct (pascal_rec fuel die (Z.shiftr n 1) _) as [[lft|e] tri2];
    [|exact H1].
  pose proof (IH (n - Z.shiftr n 1) tri2 ltac:(lia)) as H2.
  destruct (pascal_rec fuel die (n - Z.shiftr n 1) tri2) as [[rgt|e] tri3];
    [|exact H2].
  assert (Hloop : forall ls rs i (t : triangle),
            (outer_loop n i ls rs t).1 <> Throw OutOfFuel).
  { assert (Hin : forall rs i li j (t : triangle),
              (inner_loop n i li j rs t).1 <> Throw OutOfFuel).
    { induction rs as [|r rs IHr]; intros i li j t; simpl; [discriminate|].
      unfold add_assign. destruct (t !! n) as [t0|]; [|discriminate].
      destruct (cells t0 !! (i + j)%nat); [apply IHr|discriminate]. }
    induction ls as [|l ls IHl]; intros rs i t; simpl; [discriminate|].
    specialize (Hin rs i l 0%nat t).
    destruct (inner_loop n i l 0 rs t) as [[[]|e] t']; [apply IHl|exact Hin]. }
  specialize (Hloop (cells lft) (cells rgt) 0%nat tri3).
  destruct (outer_loop n 0 (cells lft) (cells rgt) tri3) as [[[]|e] tri4];
    [|simpl in *; intros [= ->]; now apply Hloop].
  unfold return_row. destruct (tri4 !! n); discriminate.
Qed.

Lemma palindromic_lookup (c : list Z) (i : nat) :
  palindromic c -> (i < length c)%nat -> c !! i = c !! (length c - 1 - i)%nat.
Proof.
  intros Hp Hi. rewrite !lookup_coef by lia. f_equal.
  rewrite <- (Hp (Z.of_nat i)). f_equal. lia.
Qed.

(** C5, as the code has it.  On an engine whose [die] has not changed and
    is at least 2, for [n >= 1] with [n * die <= 1000], [row(n)] returns a
    row of exactly [(die-1)*n + 1] entries that is palindromic: entry [i]
    equals entry [length - 1 - i] for every index [i] of the row. *)
Theorem pascal_length_palindrome (die n : Z) (tri : triangle) :
  2 <= die -> 1 <= n -> n * die <= 1000 -> reachable die tri ->
  exists r tri',
    pascal die n tri = (Ok r, tri')
    /\ Z.of_nat (length (cells r)) = (die - 1) * n + 1
    /\ forall i : nat, (i < length (cells r))%nat ->
         cells r !! i = cells r !! (length (cells r) - 1 - i)%nat.
Proof.
  intros Hd Hn Hbig Hreach.
  destruct (pascal_returns_good die n tri) as (r & tri' & E & Hlen & Hpal);
    auto using reachable_good with zarith.
  exists r, tri'. split; [assumption|]. split; [rewrite Hlen; nia|].
  intros i Hi. now apply palindromic_lookup.
Qed.

Lemma pascal_length_palindrome_witness :
  exists r tri',
    pascal 6 2 ∅ = (Ok r, tri')
    /\ Z.of_nat (length (cells r)) = (6 - 1) * 2 + 1
    /\ forall i : nat, (i < length (cells r))%nat ->
         cells r !! i = cells r !! (length (cells r) - 1 - i)%nat.
Proof.
  apply (pascal_length_palindrome 6 2 ∅); [lia | lia | lia | apply reach_new].
Defined.

(** C5 as stated fails once [die] has changed: after [row(2)] with two
    faces and [die] set to 3, [row(2)] still has the 3 entries of the cached
    row, not 5, and [row(5)], built from the cached rows 1 and 2, is
    [1 5 10 10 5 1 0 0 0 0 0], whose first and last entries differ. *)
Lemma die_change_breaks_length_and_symmetry :
  2 <= 3 /\ 2 * 3 <= 1000 /\ 5 * 3 <= 1000
  /\ (exists c,
        (pascal 3 2 (pascal 2 2 ∅).2).1 = Ok (BigInt64Array c)
        /\ Z.of_nat (length c) <> (3 - 1) * 2 + 1)
  /\ (exists c,
        (pascal 3 5 (pascal 2 2 ∅).2).1 = Ok (BigInt64Array c)
        /\ Z.of_nat (length c) = (3 - 1) * 5 + 1
        /\ c !! 0%nat <> c !! (length c - 1 - 0)%nat).
Proof.
  split; [lia|]. split; [lia|]. split; [lia|]. split.
  - exists [1; 2; 1]. split; [reflexivity|discriminate].
  - exists [1; 5; 10; 10; 5; 1; 0; 0; 0; 0; 0].
    split; [reflexivity|]. split; [reflexivity|discriminate].
Qed.

(** The two worked rows of the specification. *)
Example pascal_die2_n4 : row_fresh 2 4 = Ok (BigInt64Array [1; 4; 6; 4; 1]).
Proof. reflexivity. Qed.

Example pascal_die6_n2 :
  row_fresh 6 2 = Ok (BigInt64Array [1; 2; 3; 4; 5; 6; 5; 4; 3; 2; 1]).
Proof. reflexivity. Qed.

(** C4, as the code has it.  [row(n)] throws the invalid-argument error
    whenever [n < 1]; it throws the too-large error whenever [n >= 2] and
    [n * die > 1000].  Both are thrown before anything is computed: the cache
    is left exactly as it was. *)
Theorem pascal_guards (die n : Z) (tri : triangle) :
  reachable die tri ->
  (n < 1 -> pascal die n tri = (Throw InvalidArgument, tri))
  /\ (2 <= n -> 1000 < n * die ->
      pascal die n tri = (Throw ComputationTooLarge, tri)).
Proof.
  intros Hreach. unfold pascal. rewrite pascal_rec_eq. split.
  - intros Hn. now rewrite (proj2 (Z.ltb_lt n 1) Hn).
  - intros Hn Hbig. rewrite (proj2 (Z.ltb_ge n 1)) by lia.
    destruct (tri !! n) as [r|] eqn:E.
    + destruct (reachable_dom die tri Hreach n) as [?|[_ ?]]; [eauto|lia|lia].
    + rewrite (proj2 (Z.eqb_neq n 1)) by lia.
      rewrite Z.gtb_ltb. now rewrite (proj2 (Z.ltb_lt _ _) Hbig).
Qed.

Lemma pascal_guards_witness :
  pascal 2 0 ∅ = (Throw InvalidArgument, ∅)
  /\ pascal 2 1001 ∅ = (Throw ComputationTooLarge, ∅).
Proof.
  split.
  - apply (pascal_guards 2 0 ∅ (reach_new 2)). lia.
  - apply (pascal_guards 2 1001 ∅ (reach_new 2)); lia.
Defined.

(** C4 as stated fails for the base row: with [n = 1] the guard on
    [n * die] is never reached, and a fresh engine with 1001 faces returns
    its row of 1001 ones. *)
Lemma pascal_base_row_unguarded :
  1000 < 1 * 1001
  /\ row_fresh 1001 1 = Ok (BigInt64Array (ones 1001)).
Proof. split; [lia|reflexivity]. Qed.

(** C3, as the code has it.  The cache is indexed by [n] alone and [die] is
    read afresh by each call: a row that is in the cache stays there
    unchanged through every later call, whatever value [die] has by then,
    and a call for its index returns it as it is and leaves the cache
    untouched. *)
Theorem cache_survives_die_change (die' n k : Z) (tri : triangle) (r : row) :
  tri !! k = Some r ->
  (pascal die' n tri).2 !! k = Some r
  /\ (1 <= k -> pascal die' k tri = (Ok r, tri)).
Proof.
  intros Hk. split.
  - now apply pascal_rec_keeps.
  - intros H1. unfold pascal. rewrite pascal_rec_eq.
    rewrite (proj2 (Z.ltb_ge k 1)) by lia. rewrite Hk.
    now apply return_row_hit.
Qed.

Lemma cache_survives_die_change_witness :
  (pascal 3 5 (pascal 2 2 ∅).2).2 !! 2 = Some (BigInt64Array [1; 2; 1])
  /\ pascal 3 2 (pascal 2 2 ∅).2
     = (Ok (BigInt64Array [1; 2; 1]), (pascal 2 2 ∅).2).
Proof.
  assert (H : (pascal 2 2 ∅).2 !! 2 = Some (BigInt64Array [1; 2; 1]))
    by reflexivity.
  destruct (cache_survives_die_change 3 5 2 _ _ H) as [H1 H2].
  split; [exact H1 | apply H2; lia].
Defined.

(** C3 as stated fails: after [row(2)] on a two-faced engine, setting [die]
    to 3 and asking for [row(2)] again returns the row cached for two faces,
    not the row of a three-faced die. *)
Lemma die_change_returns_stale_row :
  (pascal 3 2 (pascal 2 2 ∅).2).1 = Ok (BigInt64Array [1; 2; 1])
  /\ row_fresh 3 2 = Ok (BigInt64Array [1; 2; 3; 2; 1]).
Proof. split; reflexivity. Qed.

(** Going from three faces to two leaves worse behind: [row(3)] reads the
    rows cached for three faces, runs past the end of its own row and throws
    a [TypeError]; the half-filled row stays in the cache and is what every
    later [row(3)] returns. *)
Example die_change_leaves_partial_row :
  let tri := (pascal 3 2 ∅).2 in
  (pascal 2 3 tri).1 = Throw TypeError
  /\ (pascal 2 3 (pascal 2 3 tri).2).1 = Ok (BigInt64Array [1; 2; 3; 2]).
Proof. split; reflexivity. Qed.

(** C1 at [die = 7], [n = 25] (a permitted pair: [7 * 25 = 175]).  The row
    is a [BigInt64Array]; its middle cell holds the coefficient of [x^75]
    reduced modulo [2^64], a negative number, while the coefficient itself
    exceeds [2^63]. *)
Theorem pascal_7_25_overflows :
  7 * 25 <= 1000
  /\ exists c,
       row_fresh 7 25 = Ok (BigInt64Array c)
       /\ c !! 75%nat = Some (-2174498975974933397)
       /\ exact_row 7 25 !! 75%nat = Some 53165733245153721451
       /\ 2 ^ 63 <= 53165733245153721451.
Proof.
  split; [lia|]. eexists. split; [vm_compute; reflexivity|].
  split; [reflexivity|]. split; [vm_compute; reflexivity|]. discriminate.
Qed.

(** The same on every engine with seven faces, whatever it has cached. *)
Lemma pascal_7_25_overflows_on_every_engine (tri : triangle) :
  reachable 7 tri ->
  exists r tri',
    pascal 7 25 tri = (Ok r, tri')
    /\ cells r !! 75%nat = Some (-2174498975974933397).
Proof.
  intros Hreach.
  destruct (pascal_modulo_2_64 7 25 tri) as (r & tri' & E & Hl & _ & Hc);
    [lia|lia|lia|assumption|].
  exists r, tri'. split; [assumption|].
  assert (H75 : (75 < length (cells r))%nat) by (rewrite Hl; lia).
  rewrite (lookup_coef _ _ H75), (Hc ltac:(lia) (Z.of_nat 75)).
  vm_compute. reflexivity.
Qed.

(** C2 at [die = 7], [n = 25]: the entries of the returned row add up to
    [31349790430586736071], not to [7^25 = 1341068619663964900807]. *)
Theorem pascal_7_25_sum :
  7 * 25 <= 1000
  /\ exists r,
       row_fresh 7 25 = Ok r
       /\ row_sum (cells r) = 31349790430586736071
       /\ 7 ^ 25 = 1341068619663964900807.
Proof.
  split; [lia|]. eexists. split; [vm_compute; reflexivity|].
  split; vm_compute; reflexivity.
Qed.

(** * More about [pascal] and its callers *)

(** ** One call, on an engine with a fixed [die] *)

Lemma pascal_ok_cached fuel die n (tri : triangle) r tri' :
  pascal_rec fuel die n tri = (Ok r, tri') -> 1 <= n /\ tri' !! n = Some r.
Proof.
  assert (Hret : forall t, return_row n t = (Ok r, tri') -> tri' !! n = Some r).
  { intros t. unfold return_row. destruct (t !! n) eqn:E; [|discriminate].
    intros [= <- <-]. exact E. }
  rewrite pascal_rec_eq.
  destruct (Z.ltb_spec n 1); [discriminate|].
  destruct (tri !! n); [now intros H'%Hret|].
  destruct (n =? 1); [now intros H'%Hret|].
  destruct (n * die >? 1000); [discriminate|]. cbv zeta.
  destruct (_ <? 0); [discriminate|].
  destruct fuel as [|fuel]; [discriminate|].
  destruct (pascal_rec fuel die (Z.shiftr n 1) _) as [[lft|e] tri2];
    [|discriminate].
  destruct (pascal_rec fuel die (n - Z.shiftr n 1) tri2) as [[rgt|e] tri3];
    [|discriminate].
  destruct (outer_loop n 0 (cells lft) (cells rgt) tri3) as [[[]|e] tri4];
    [|discriminate].
  now intros H'%Hret.
Qed.

Lemma pascal_outcome die n (tri : triangle) :
  1 <= die -> reachable die tri ->
  (n < 1 /\ pascal die n tri = (Throw InvalidArgument, tri))
  \/ (2 <= n /\ 1000 < n * die
      /\ pascal die n tri = (Throw ComputationTooLarge, tri))
  \/ ((n = 1 \/ 2 <= n /\ n * die <= 1000)
      /\ exists r tri', pascal die n tri = (Ok r, tri')
                        /\ tri' !! n = Some r /\ good die n r).
Proof.
  intros Hd Hreach.
  pose proof (reachable_good die tri Hd Hreach) as Hg.
  destruct (Z.ltb_spec n 1) as [Hn|Hn].
  { left. split; [assumption|]. unfold pascal. rewrite pascal_rec_eq.
    now rewrite (proj2 (Z.ltb_lt n 1) Hn). }
  right. destruct (Z.eq_dec n 1) as [->|Hn1].
  { right. split; [now left|]. unfold pascal. rewrite pascal_rec_eq.
    change (1 <? 1) with false. cbv iota.
    destruct (tri !! 1) as [r0|] eqn:E.
    - rewrite (return_row_hit _ _ _ E). eauto 6.
    - change (1 =? 1) with true. cbv iota.
      rewrite (return_row_hit 1 _ _ (lookup_insert_eq tri 1 _)).
      do 2 eexists. split; [reflexivity|].
      split; [apply lookup_insert_eq|now apply good_ones]. }
  destruct (Z.le_gt_cases (n * die) 1000) as [Hbig|Hbig].
  - right. split; [right; lia|].
    destruct (pascal_returns_good die n tri Hd Hg Hn Hbig) as (r & tri' & E & G).
    exists r, tri'. repeat split; try assumption; try apply G.
    now apply (pascal_ok_cached _ _ _ _ _ _ E).
  - left. split; [lia|]. split; [lia|].
    unfold pascal. rewrite pascal_rec_eq.
    rewrite (proj2 (Z.ltb_ge n 1)) by lia.
    destruct (tri !! n) as [r|] eqn:E.
    + destruct (reachable_dom die tri Hreach n) as [?|[_ ?]]; [eauto|lia|lia].
    + rewrite (proj2 (Z.eqb_neq n 1)) by lia.
      rewrite Z.gtb_ltb. now rewrite (proj2 (Z.ltb_lt _ _) Hbig).
Qed.

(** X1. On an engine whose [die] is fixed and positive a call is all or
    nothing: either it returns a row, which is then in the cache at its
    index, or it throws one of the two errors of the source and leaves the
    cache exactly as it was.  It never throws a [TypeError] or a
    [RangeError] and never leaves a half-filled row behind. *)
Theorem pascal_all_or_nothing (die n : Z) (tri : triangle) :
  1 <= die -> reachable die tri ->
  (exists r tri', pascal die n tri = (Ok r, tri') /\ tri' !! n = Some r)
  \/ (exists e, pascal die n tri = (Throw e, tri)
                /\ (e = InvalidArgument \/ e = ComputationTooLarge)).
Proof.
  intros Hd Hreach.
  destruct (pascal_outcome die n tri Hd Hreach)
    as [[_ E]|[(_ & _ & E)|(_ & r & tri' & E & Hr & _)]]; eauto 7.
Qed.

Lemma pascal_all_or_nothing_witness :
  (exists r tri', pascal 6 3 ∅ = (Ok r, tri') /\ tri' !! 3 = Some r)
  \/ (exists e, pascal 6 3 ∅ = (Throw e, ∅)
                /\ (e = InvalidArgument \/ e = ComputationTooLarge)).
Proof.
  apply (pascal_all_or_nothing 6 3 ∅); [lia|apply reach_new].
Defined.

(** X2. A call that returns has cached what it returns: asking again for
    the same index, under any value of [die], returns the same row and
    leaves the cache untouched. *)
Theorem pascal_idempotent (die die' n : Z) (tri tri' : triangle) (r : row) :
  pascal die n tri = (Ok r, tri') -> pascal die' n tri' = (Ok r, tri').
Proof.
  intros E. destruct (pascal_ok_cached _ _ _ _ _ _ E) as [Hn Hr].
  unfold pascal. rewrite pascal_rec_eq.
  rewrite (proj2 (Z.ltb_ge n 1)) by lia. rewrite Hr.
  now apply return_row_hit.
Qed.

Lemma pascal_idempotent_witness :
  pascal 3 2 (pascal 6 2 ∅).2
  = (Ok (BigInt64Array [1; 2; 3; 4; 5; 6; 5; 4; 3; 2; 1]), (pascal 6 2 ∅).2).
Proof.
  apply (pascal_idempotent 6 3 2 ∅). reflexivity.
Defined.

(** X3. The cache of an engine with a fixed positive [die] only ever holds
    rows at indices from 1 to 1000, row 1 apart only those the size guard
    lets through. *)
Theorem cache_indices_bounded (die k : Z) (tri : triangle) :
  1 <= die -> reachable die tri -> is_Some (tri !! k) ->
  1 <= k <= 1000 /\ (k = 1 \/ k * die <= 1000).
Proof.
  intros Hd Hreach Hk.
  destruct (reachable_dom die tri Hreach k Hk) as [->|[H2 Hb]]; [lia|].
  split; [nia|now right].
Qed.

Lemma cache_indices_bounded_witness :
  1 <= 2 <= 1000 /\ (2 = 1 \/ 2 * 6 <= 1000).
Proof.
  apply (cache_indices_bounded 6 2 (pascal 6 2 ∅).2);
    [lia|apply reach_call, reach_new|].
  exists (BigInt64Array [1; 2; 3; 4; 5; 6; 5; 4; 3; 2; 1]). reflexivity.
Defined.

(** ** The cache does not show *)

Lemma built_row_fuel die :
  forall fuel fuel' n,
    (Z.to_nat n <= fuel)%nat -> (Z.to_nat n <= fuel')%nat ->
    built_row fuel die n = built_row fuel' die n.
Proof.
  induction fuel as [|fuel IH]; intros [|fuel'] n H H'; simpl;
    destruct (Z.leb_spec n 1); try reflexivity; try lia.
  destruct (shiftr_1_bounds n ltac:(lia)) as [B1 B2].
  now rewrite (IH fuel' (Z.shiftr n 1)), (IH fuel' (n - Z.shiftr n 1)) by lia.
Qed.

Lemma canonical_product die n (lft rgt : row) :
  1 <= die -> 2 <= n ->
  canonical die (Z.shiftr n 1) lft -> canonical die (n - Z.shiftr n 1) rgt ->
  canonical die n (product_row die n lft rgt).
Proof.
  intros Hd Hn (_ & Gl & El) (_ & Gr & Er).
  destruct (shiftr_1_bounds n Hn) as [B1 B2].
  split; [lia|]. split; [now apply good_product|].
  destruct (Z.to_nat n) as [|fuel] eqn:Ef; [lia|]. simpl.
  rewrite (proj2 (Z.leb_gt n 1)) by lia.
  rewrite El, Er. f_equal; apply built_row_fuel; lia.
Qed.

Lemma reachable_canonical die (tri : triangle) :
  1 <= die -> reachable die tri -> cache_all (canonical die) tri.
Proof.
  intros Hd. apply reachable_cache_all; auto.
  - now intros k r (_ & [H _] & _).
  - split; [lia|]. split; [now apply good_ones|reflexivity].
  - intros n lft rgt Hn _. now apply canonical_product.
Qed.

Lemma pascal_canonical die n (tri tri' : triangle) r :
  1 <= die -> reachable die tri ->
  pascal die n tri = (Ok r, tri') -> r = built_row (Z.to_nat n) die n.
Proof.
  intros Hd Hreach E.
  destruct (pascal_ok_cached _ _ _ _ _ _ E) as [_ Hr].
  assert (Hreach' : reachable die tri').
  { replace tri' with (pascal die n tri).2 by now rewrite E.
    now apply reach_call. }
  now destruct (reachable_canonical die tri' Hd Hreach' n r Hr) as (_ & _ & ->).
Qed.

(** X4. On an engine with a fixed positive [die] the cache is invisible:
    whatever has been asked before, [row(n)] returns, or throws, exactly
    what it does on a new engine. *)
Theorem pascal_cache_transparent (die n : Z) (tri : triangle) :
  1 <= die -> reachable die tri -> (pascal die n tri).1 = row_fresh die n.
Proof.
  intros Hd Hreach. unfold row_fresh.
  destruct (pascal_outcome die n tri Hd Hreach)
    as [[H1 E1]|[(H1 & H1' & E1)|(H1 & r1 & t1 & E1 & _)]];
    destruct (pascal_outcome die n ∅ Hd (reach_new die))
      as [[H2 E2]|[(H2 & H2' & E2)|(H2 & r2 & t2 & E2 & _)]];
    try lia; rewrite E1, E2; try reflexivity.
  simpl. f_equal.
  rewrite (pascal_canonical die n tri t1 r1 Hd Hreach E1).
  now rewrite (pascal_canonical die n ∅ t2 r2 Hd (reach_new die) E2).
Qed.

Lemma pascal_cache_transparent_witness :
  (pascal 6 2 (pascal 6 5 ∅).2).1 = row_fresh 6 2.
Proof.
  apply (pascal_cache_transparent 6 2); [lia|apply reach_call, reach_new].
Defined.

(** ** What the rows hold *)

Lemma coef_map_asIntN64 l m : coef (map asIntN64 l) m = asIntN64 (coef l m).
Proof.
  revert m. induction l as [|a l IH]; intros m; simpl.
  - now rewrite !coef_nil.
  - rewrite !coef_cons, IH. now destruct (m =? 0).
Qed.

(** X5. On every engine with a fixed positive [die], a row below index 27
    holds the coefficients of [(1 + x + ... + x^(die-1))^n] brought into
    the signed 64-bit range, cell by cell. *)
Theorem rows_below_27_wrap (die n : Z) (tri : triangle) :
  1 <= die -> 1 <= n < 27 -> n * die <= 1000 -> reachable die tri ->
  exists r tri',
    pascal die n tri = (Ok r, tri')
    /\ cells r = map asIntN64 (exact_row die n).
Proof.
  intros Hd Hn Hbig Hreach.
  destruct (pascal_modulo_2_64 die n tri) as (r & tri' & E & Hl & _ & Hc);
    [lia..|assumption|].
  exists r, tri'. split; [assumption|]. apply list_eq_coef.
  - now rewrite length_map, Hl, length_exact_row by lia.
  - intros m. rewrite coef_map_asIntN64. apply Hc. lia.
Qed.

Lemma rows_below_27_wrap_witness :
  exists r tri',
    pascal 7 25 ∅ = (Ok r, tri')
    /\ cells r = map asIntN64 (exact_row 7 25).
Proof.
  apply (rows_below_27_wrap 7 25 ∅); [lia|lia|lia|apply reach_new].
Defined.

Lemma choose_0_r n : choose n 0 = 1.
Proof. now destruct n. Qed.

Lemma conv_coef_1_1 q m : conv_coef [1; 1] q m = coef q m + coef q (m - 1).
Proof.
  unfold conv_coef. cbn [length zsum].
  change (coef [1; 1] (Z.of_nat 0)) with 1.
  change (coef [1; 1] (Z.of_nat 1)) with 1.
  change (Z.of_nat 0) with 0. change (Z.of_nat 1) with 1.
  rewrite Z.sub_0_r. lia.
Qed.

Lemma exact_row_2_choose n :
  forall k, coef (exact_row 2 (Z.of_nat n)) (Z.of_nat k) = choose n k.
Proof.
  unfold exact_row. rewrite Nat2Z.id.
  induction n as [|n IH]; intros k.
  - destruct k as [|k]; [reflexivity|].
    cbn [poly_pow choose]. rewrite coef_cons_pos, coef_nil by lia. reflexivity.
  - cbn [poly_pow]. rewrite poly_mul_coef.
    change (ones 2) with [1; 1]. rewrite conv_coef_1_1, IH.
    destruct k as [|k].
    + rewrite choose_0_r, coef_neg by lia. reflexivity.
    + replace (Z.of_nat (S k) - 1) with (Z.of_nat k) by lia.
      rewrite IH. cbn [choose]. lia.
Qed.

(** X6. With two faces the rows are Pascal's triangle: on every engine
    with [die = 2], [row(n)] for [n] up to 500 has [n + 1] entries and its
    entry [k] is the binomial coefficient of [n] over [k]. *)
Theorem pascal_die2_binomial (n : Z) (tri : triangle) :
  1 <= n <= 500 -> reachable 2 tri ->
  exists r tri',
    pascal 2 n tri = (Ok r, tri')
    /\ length (cells r) = S (Z.to_nat n)
    /\ forall k : nat, (k <= Z.to_nat n)%nat ->
         cells r !! k = Some (choose (Z.to_nat n) k).
Proof.
  intros Hn Hreach.
  destruct (pascal_exact_if_fits 2 n tri) as (r & tri' & E & Hr & _);
    [lia|apply fits_upto_6; lia|lia|lia|assumption|].
  assert (Hl : length (cells r) = S (Z.to_nat n))
    by (rewrite Hr, length_exact_row by lia; lia).
  exists r, tri'. repeat split; try assumption.
  intros k Hk. rewrite lookup_coef by lia. f_equal.
  rewrite Hr. rewrite <- (Z2Nat.id n) at 1 by lia. apply exact_row_2_choose.
Qed.

Lemma pascal_die2_binomial_witness :
  exists r tri',
    pascal 2 4 ∅ = (Ok r, tri')
    /\ length (cells r) = S (Z.to_nat 4)
    /\ forall k : nat, (k <= Z.to_nat 4)%nat ->
         cells r !! k = Some (choose (Z.to_nat 4) k).
Proof.
  apply (pascal_die2_binomial 4 ∅); [lia|apply reach_new].
Defined.

(** X7. With up to six faces nothing overflows: on every engine with
    [die] from 1 to 6, [row(n)] is the list of coefficients of
    [(1 + x + ... + x^(die-1))^n] and its entries add up to [die^n]. *)
Theorem small_dice_rows_exact (die n : Z) (tri : triangle) :
  1 <= die <= 6 -> 1 <= n -> n * die <= 1000 -> reachable die tri ->
  exists r tri',
    pascal die n tri = (Ok r, tri')
    /\ cells r = exact_row die n
    /\ row_sum (cells r) = die ^ n.
Proof.
  intros Hd. apply pascal_exact_if_fits; [lia|now apply fits_upto_6].
Qed.

Lemma small_dice_rows_exact_witness :
  exists r tri',
    pascal 6 100 ∅ = (Ok r, tri')
    /\ cells r = exact_row 6 100
    /\ row_sum (cells r) = 6 ^ 100.
Proof.
  apply (small_dice_rows_exact 6 100 ∅); [lia|lia|lia|apply reach_new].
Defined.

(** ** Precomputing *)

Lemma precompute_from_keeps die todo :
  forall i (tri : triangle) k r,
    tri !! k = Some r -> (precompute_from die i todo tri).2 !! k = Some r.
Proof.
  induction todo as [|todo IH]; intros i tri k r Hk; simpl; [assumption|].
  pose proof (pascal_rec_keeps die (Z.to_nat i) i tri k r Hk) as H.
  fold (pascal die i tri) in H.
  destruct (pascal die i tri) as [[r'|e] tri1]; simpl in *; auto.
Qed.

Lemma precompute_from_ok die :
  1 <= die ->
  forall todo i (tri : triangle),
    1 <= i -> (i + Z.of_nat todo - 1) * die <= 1000 \/ todo = O ->
    reachable die tri ->
    exists tri',
      precompute_from die i todo tri = (Ok tt, tri')
      /\ reachable die tri'
      /\ forall j, i <= j < i + Z.of_nat todo -> is_Some (tri' !! j).
Proof.
  intros Hd. induction todo as [|todo IH]; intros i tri Hi Hlast Hreach.
  - exists tri. repeat split; auto. intros j Hj. lia.
  - destruct Hlast as [Hlast|]; [|discriminate]. cbn [precompute_from].
    destruct (pascal_outcome die i tri Hd Hreach)
      as [[? _]|[(_ & ? & _)|(_ & r & tri1 & E & Hr & _)]]; [lia|nia|].
    assert (Hreach1 : reachable die tri1).
    { replace tri1 with (pascal die i tri).2 by now rewrite E.
      now apply reach_call. }
    rewrite E.
    destruct (IH (i + 1) tri1) as (tri' & E' & Hreach' & Hall);
      [lia|destruct todo; [now right|left; nia]|assumption|].
    exists tri'. repeat split; auto.
    intros j Hj. destruct (Z.eq_dec j i) as [->|Hne]; [|apply Hall; lia].
    exists r.
    pose proof (precompute_from_keeps die todo (i + 1) tri1 i r Hr) as K.
    now rewrite E' in K.
Qed.

(** X8. Precomputing up to [p] on an engine with a fixed positive [die]
    and [p * die <= 1000] does not throw, and afterwards every [row(i)] with
    [1 <= i <= p] is answered from the cache: it returns and leaves the
    cache as it is. *)
Theorem precompute_fills (die p : Z) (tri : triangle) :
  1 <= die -> 0 <= p -> p * die <= 1000 -> reachable die tri ->
  exists tri',
    precompute die (Some p) tri = (Ok tt, tri')
    /\ forall i, 1 <= i <= p -> exists r, pascal die i tri' = (Ok r, tri').
Proof.
  intros Hd Hp Hbig Hreach. unfold precompute.
  destruct (precompute_from_ok die Hd (Z.to_nat p) 1 tri)
    as (tri' & E & _ & Hall); [lia|left; nia|assumption|].
  exists tri'. split; [assumption|].
  intros i Hi. destruct (Hall i ltac:(lia)) as [r Hr]. exists r.
  unfold pascal. rewrite pascal_rec_eq.
  rewrite (proj2 (Z.ltb_ge i 1)) by lia. rewrite Hr.
  now apply return_row_hit.
Qed.

Lemma precompute_fills_witness :
  exists tri',
    precompute 6 (Some 10) ∅ = (Ok tt, tri')
    /\ forall i, 1 <= i <= 10 -> exists r, pascal 6 i tri' = (Ok r, tri').
Proof.
  apply (precompute_fills 6 10 ∅); [lia|lia|lia|apply reach_new].
Defined.

Lemma precompute_from_throws die :
  1 <= die ->
  forall todo i (tri : triangle),
    1 <= i -> 2 <= i + Z.of_nat todo ->
    1000 < (i + Z.of_nat todo) * die ->
    reachable die tri ->
    exists tri',
      precompute_from die i (S todo) tri = (Throw ComputationTooLarge, tri').
Proof.
  intros Hd.
  assert (Hstep : forall todo i (tri : triangle),
            precompute_from die i (S todo) tri
            = match pascal die i tri with
              | (Throw e, tri') => (Throw e, tri')
              | (Ok _, tri') => precompute_from die (i + 1) todo tri'
              end) by reflexivity.
  induction todo as [|todo IH]; intros i tri Hi H2 Hbig Hreach;
    rewrite Hstep;
    destruct (pascal_outcome die i tri Hd Hreach)
      as [[? _]|[(_ & _ & E)|(Hok & r & tri1 & E & _)]];
    try lia; rewrite E; eauto.
  assert (Hreach1 : reachable die tri1).
  { replace tri1 with (pascal die i tri).2 by now rewrite E.
    now apply reach_call. }
  replace (i + Z.of_nat (S todo)) with (i + 1 + Z.of_nat todo) in * by lia.
  now apply IH; [lia| | |].
Qed.

(** X9. Precomputing up to [p >= 2] with [p * die > 1000] does throw: the
    loop of [connectedCallback] ends in the too-large error, so nothing
    after it in the callback is run. *)
Theorem precompute_too_large (die p : Z) (tri : triangle) :
  1 <= die -> 2 <= p -> 1000 < p * die -> reachable die tri ->
  exists tri',
    precompute die (Some p) tri = (Throw ComputationTooLarge, tri').
Proof.
  intros Hd Hp Hbig Hreach. unfold precompute.
  replace (Z.to_nat p) with (S (Z.to_nat (p - 1))) by lia.
  apply precompute_from_throws; auto; lia.
Qed.

Lemma precompute_too_large_witness :
  exists tri',
    precompute 6 (Some 167) ∅ = (Throw ComputationTooLarge, tri').
Proof.
  apply (precompute_too_large 6 167 ∅); [lia|lia|lia|apply reach_new].
Defined.

(** ** A negative die *)



Lemma get_die_nonzero attr : get_die attr <> 0.
Proof.
  destruct attr as [d|]; simpl; [|discriminate].
  destruct (Z.eqb_spec d 0); [discriminate|assumption].
Qed.




(** ** Labels under the bars *)

(** X10. [draw] never writes more than sixteen labels: the bars it labels
    are multiples of the label step, the first bar among them, and fewer
    than sixteen steps fit in a row (of fewer than [2^31] bars, where [>>]
    is the plain shift). *)
Theorem labels_at_most_sixteen (len i : Z) :
  len < 2 ^ 31 -> 0 <= i < len -> labelled len i = true ->
  labelled len 0 = true
  /\ exists q, 0 <= q < 16 /\ i = q * label_step len.
Proof.
  intros _ Hi Hl. unfold labelled, label_step in *.
  rewrite Z.shiftr_div_pow2 in * by lia. change (2 ^ 4) with 16 in *.
  pose proof (Z.div_mod len 16 ltac:(lia)).
  pose proof (Z.mod_pos_bound len 16 ltac:(lia)).
  assert (Hs : 0 < len / 16 + 1) by lia.
  split; [now rewrite Z.rem_0_l by lia|].
  apply Z.eqb_eq in Hl.
  pose proof (Z.quot_rem' i (len / 16 + 1)) as Hq. rewrite Hl in Hq.
  exists (i ÷ (len / 16 + 1)).
  pose proof (Z.quot_pos i (len / 16 + 1) ltac:(lia) Hs).
  split; [|lia]. split; [assumption|]. nia.
Qed.

Lemma labels_at_most_sixteen_witness :
  labelled 11 0 = true
  /\ exists q, 0 <= q < 16 /\ 7 = q * label_step 11.
Proof.
  apply (labels_at_most_sixteen 11 7); [lia|lia|reflexivity].
Defined.

End BinomFacts.

(** * Facts about [Normal] *)

Module NormalFacts.
Import Normal.
Local Open Scope float_scope.

(** ** Comparisons of binary64 values *)

Lemma SFcompare_antisym x y :
  SFcompare y x = option_map CompOpp (SFcompare x y).
Proof.
  destruct x as [sx|sx| |sx mx ex], y as [sy|sy| |sy my ey]; simpl;
    try destruct sx; try destruct sy; try reflexivity; simpl; f_equal;
    rewrite (Z.compare_antisym ex ey);
    destruct (Z.compare ex ey); simpl; try reflexivity;
    now rewrite (Pos.compare_cont_antisym mx my Eq).
Qed.

Lemma ltb_asym a b : (a <? b) = true -> (b <? a) = false.
Proof.
  rewrite !FloatAxioms.ltb_spec. unfold SFltb. rewrite (SFcompare_antisym (Prim2SF a) (Prim2SF b)).
  now destruct (SFcompare (Prim2SF a) (Prim2SF b)) as [[]|].
Qed.

Lemma ltb_eqb_false a b : (a <? b) = true -> (a =? b) = false /\ (b =? a) = false.
Proof.
  rewrite FloatAxioms.ltb_spec, !FloatAxioms.eqb_spec. unfold SFltb, SFeqb.
  rewrite (SFcompare_antisym (Prim2SF a) (Prim2SF b)).
  now destruct (SFcompare (Prim2SF a) (Prim2SF b)) as [[]|].
Qed.

Lemma leb_ltb_false a b : (a <=? b) = true -> (b <? a) = false.
Proof.
  rewrite FloatAxioms.leb_spec, FloatAxioms.ltb_spec. unfold SFleb, SFltb.
  rewrite (SFcompare_antisym (Prim2SF a) (Prim2SF b)).
  now destruct (SFcompare (Prim2SF a) (Prim2SF b)) as [[]|].
Qed.

Lemma ltb_opp_0 x : (x <? 0) = true -> (- x <? 0) = false.
Proof.
  rewrite !FloatAxioms.ltb_spec, FloatAxioms.opp_spec.
  change (Prim2SF 0) with (S754_zero false).
  now destruct (Prim2SF x) as [[]|[]| |[] m e].
Qed.

Lemma leb_30_not_neg x : (30 <=? x) = true -> (x <? 0) = false.
Proof.
  rewrite FloatAxioms.leb_spec, FloatAxioms.ltb_spec.
  change (Prim2SF 0) with (S754_zero false).
  replace (Prim2SF 30) with (S754_finite false 8444249301319680 (-48))
    by (vm_compute; reflexivity).
  now destruct (Prim2SF x) as [[]|[]| |[] m e].
Qed.

Lemma leb_30_opp_neg x : (30 <=? x) = true -> (- x <? 0) = true.
Proof.
  rewrite FloatAxioms.leb_spec, FloatAxioms.ltb_spec, FloatAxioms.opp_spec.
  change (Prim2SF 0) with (S754_zero false).
  replace (Prim2SF 30) with (S754_finite false 8444249301319680 (-48))
    by (vm_compute; reflexivity).
  now destruct (Prim2SF x) as [[]|[]| |[] m e].
Qed.

Lemma opp_involutive x : - - x = x.
Proof.
  apply Prim2SF_inj. rewrite !FloatAxioms.opp_spec.
  destruct (Prim2SF x) as [[]|[]| |[] m e]; reflexivity.
Qed.

Lemma sub_nan_r v : v - nan = nan.
Proof.
  apply Prim2SF_inj. rewrite FloatAxioms.sub_spec.
  change (Prim2SF nan) with S754_nan.
  now destruct (Prim2SF v).
Qed.

(** ** [erfc] *)

Section WithExp.
Variable exp : float -> float.

(** The recursive equation of the source: below zero [erfc] reflects,
    otherwise it runs the approximation. *)
Lemma erfc_unfold x :
  erfc exp x = if x <? 0 then 2 - erfc exp (- x) else erfc_tail exp x.
Proof.
  unfold erfc. destruct (x <? 0) eqn:E; [|reflexivity].
  now rewrite (ltb_opp_0 x E).
Qed.

Lemma erfc_reflect x : (x <? 0) = true -> erfc exp x = 2 - erfc exp (- x).
Proof. intros E. now rewrite erfc_unfold, E. Qed.

Lemma erfc_saturates x : (30 <=? x) = true -> erfc exp x = 0.
Proof.
  intros E. unfold erfc, erfc_tail. now rewrite (leb_30_not_neg x E), E.
Qed.

(** Beyond 30 in either direction the two values are [0] and [2], and
    their sum is [2] on the nose. *)
Lemma erfc_sum_saturated x :
  (30 <=? x) = true ->
  erfc exp x + erfc exp (- x) = 2 /\ erfc exp (- x) + erfc exp (- - x) = 2.
Proof.
  intros E. rewrite opp_involutive.
  rewrite (erfc_reflect (- x) (leb_30_opp_neg x E)), opp_involutive.
  rewrite (erfc_saturates x E). split; reflexivity.
Qed.

(** ** The Newton loop *)

Lemma cnt_iter y k s : cnt (Nat.iter k (newton_body exp y) s) = (k + cnt s)%nat.
Proof. induction k as [|k IH]; simpl; [reflexivity|now rewrite IH]. Qed.

Lemma newton_run_spec y budget :
  forall s, (cnt s + budget = 40)%nat ->
    exists k,
      newton_run exp budget y s = Nat.iter k (newton_body exp y) s
      /\ (k <= budget)%nat
      /\ newton_loop exp y s (newton_run exp budget y s)
      /\ newton_test (newton_run exp budget y s) = false
      /\ forall j, (j < k)%nat ->
           newton_test (Nat.iter j (newton_body exp y) s) = true.
Proof.
  induction budget as [|b IH]; intros s Hs; simpl.
  - assert (Ht : newton_test s = false).
    { unfold newton_test. replace (cnt s) with 40%nat by lia.
      apply andb_false_r. }
    rewrite Ht. exists 0%nat. simpl.
    repeat split; auto using loop_exit; lia.
  - destruct (newton_test s) eqn:Ht.
    + destruct (IH (newton_body exp y s)) as (k & E & Hk & Hl & Hf & Hj);
        [simpl; lia|].
      exists (S k). rewrite Nat.iter_succ_r.
      repeat split; auto using loop_iter; [lia|].
      intros [|j] Hlt; [exact Ht|].
      rewrite Nat.iter_succ_r. apply Hj. lia.
    + exists 0%nat. simpl. repeat split; auto using loop_exit; lia.
Qed.

Lemma newton_loop_deterministic y s s1 s2 :
  newton_loop exp y s s1 -> newton_loop exp y s s2 -> s1 = s2.
Proof.
  intros H1. revert s2. induction H1 as [s Hs|s s1 Hs _ IH]; intros s2 H2;
    inversion H2; subst; auto; congruence.
Qed.

End WithExp.

(** C6. For [y] strictly between 0 and 1, [probit(y)] terminates: the Newton
    loop comes to an end after at most 40 executions of its body, [probit]
    returns the [x] it ends with, and the loop stops no later than the first
    iterate whose residual [|cdf(x) - y|] is [<= 2.3e-16]. *)
Theorem probit_terminates (exp : float -> float) (y : float) :
  (0 <? y) = true -> (y <? 1) = true ->
  exists steps : nat,
    newton_loop exp y (newton_init exp y) (iterate exp y steps)
    /\ probit exp y = Returned (nx (iterate exp y steps)) steps
    /\ (steps <= 40)%nat
    /\ forall k : nat,
         (abs (nfx (iterate exp y k)) <=? tolerance) = true ->
         (steps <= k)%nat.
Proof.
  intros H0 H1.
  destruct (newton_run_spec exp y 40 (newton_init exp y) eq_refl)
    as (k & E & Hk & Hl & Hf & Hj).
  exists k. unfold iterate. rewrite <- E.
  split; [exact Hl|]. split; [|split; [exact Hk|]].
  - unfold probit.
    rewrite (ltb_asym _ _ H0), (ltb_asym _ _ H1).
    rewrite (proj2 (ltb_eqb_false _ _ H0)), (proj1 (ltb_eqb_false _ _ H1)).
    simpl. rewrite E at 2. now rewrite cnt_iter, Nat.add_0_r.
  - intros j Hle. destruct (Nat.le_gt_cases k j) as [|Hlt]; [assumption|].
    specialize (Hj j Hlt). unfold newton_test in Hj.
    apply andb_prop in Hj as [Hj _].
    now rewrite (leb_ltb_false _ _ Hle) in Hj.
Qed.

Lemma probit_terminates_witness :
  exists steps : nat,
    newton_loop exp_series 0.3 (newton_init exp_series 0.3)
      (iterate exp_series 0.3 steps)
    /\ probit exp_series 0.3 = Returned (nx (iterate exp_series 0.3 steps)) steps
    /\ (steps <= 40)%nat
    /\ forall k : nat,
         (abs (nfx (iterate exp_series 0.3 k)) <=? tolerance) = true ->
         (steps <= k)%nat.
Proof.
  apply (probit_terminates exp_series 0.3); reflexivity.
Defined.

(** C7. [probit(y)] throws the invalid-argument error if [y < 0] or
    [y > 1]; [probit(0)] returns [-Infinity] and [probit(1)] returns
    [+Infinity], both without any Newton step. *)
Theorem probit_domain (exp : float -> float) :
  (forall y, (y <? 0) = true \/ (1 <? y) = true ->
             probit exp y = InvalidArgument)
  /\ probit exp 0 = Returned neg_infinity 0
  /\ probit exp 1 = Returned infinity 0.
Proof.
  split; [|split; reflexivity].
  intros y [H|H]; unfold probit; rewrite H; [reflexivity|].
  now rewrite orb_true_r.
Qed.

Lemma probit_domain_witness :
  probit exp_series (-0.1) = InvalidArgument
  /\ probit exp_series 1.1 = InvalidArgument.
Proof.
  destruct (probit_domain exp_series) as [H _].
  split; apply H; [left|right]; reflexivity.
Defined.

(** C9. [cdf(0)] is [0.5] within the machine epsilon (it is the binary64
    number next below [0.5]), [cdf(+Infinity)] is exactly [1] and
    [cdf(-Infinity)] exactly [0]; [Math.exp(-0)] is [1]. *)
Theorem cdf_special_values (exp : float -> float) :
  exp (-0) = 1 ->
  cdf exp 0 = 0.49999999999999989
  /\ (abs (cdf exp 0 - 0.5) <=? EPSILON) = true
  /\ cdf exp infinity = 1
  /\ cdf exp neg_infinity = 0.
Proof.
  intros H. cbv in H.
  cut (cdf exp 0 = 0.49999999999999989).
  { intros E. rewrite E. repeat split; vm_compute; reflexivity. }
  assert (E : cdf exp 0 = 0.49999999999999989).
  { unfold cdf, erfc.
    match goal with |- context [if ?b then _ else _] =>
      let v := eval vm_compute in b in change b with v end.
    cbv iota. unfold erfc_tail.
    match goal with |- context [if ?b then _ else _] =>
      let v := eval vm_compute in b in change b with v end.
    cbv iota.
    match goal with |- context [exp ?a] =>
      let v := eval vm_compute in a in change a with v end.
    rewrite H. vm_compute. reflexivity. }
  exact E.
Qed.

Lemma cdf_special_values_witness :
  cdf exp_series 0 = 0.49999999999999989
  /\ (abs (cdf exp_series 0 - 0.5) <=? EPSILON) = true
  /\ cdf exp_series infinity = 1
  /\ cdf exp_series neg_infinity = 0.
Proof.
  apply (cdf_special_values exp_series). vm_compute. reflexivity.
Defined.

(** C10. On [NaN] both the domain test [y < 0 || y > 1] and the loop test
    [|cdf(0) - y| > 2.3e-16] are false: [probit(NaN)] does not throw,
    performs no Newton step and returns [0]. *)
Theorem probit_nan (exp : float -> float) :
  ((nan <? 0) || (1 <? nan)) = false
  /\ (tolerance <? abs (cdf exp 0 - nan)) = false
  /\ probit exp nan = Returned 0 0.
Proof.
  assert (Hg : (tolerance <? abs (cdf exp 0 - nan)) = false)
    by now rewrite sub_nan_r.
  split; [reflexivity|]. split; [exact Hg|].
  unfold probit.
  change ((nan <? 0) || (1 <? nan)) with false.
  change (nan =? 0) with false. change (nan =? 1) with false.
  cbv iota zeta.
  assert (Ht : newton_test (newton_init exp nan) = false)
    by (unfold newton_test, newton_init; cbn [nfx cnt]; now rewrite Hg).
  cbn [newton_run]. now rewrite Ht.
Qed.

(** * More about [Normal] and the widget around it *)

(** ** Signs and [NaN] *)

Lemma mul_opp_opp x : (- - x) * (- x) = (- x) * x.
Proof.
  apply Prim2SF_inj.
  rewrite !FloatAxioms.mul_spec, !FloatAxioms.opp_spec.
  destruct (Prim2SF x) as [[]|[]| |[] m e]; reflexivity.
Qed.

Lemma div_nan_r u : u / nan = nan.
Proof.
  apply Prim2SF_inj. rewrite FloatAxioms.div_spec.
  change (Prim2SF nan) with S754_nan.
  now destruct (Prim2SF u).
Qed.

Lemma sub_0_r x : x - 0 = x.
Proof.
  apply Prim2SF_inj. rewrite FloatAxioms.sub_spec.
  change (Prim2SF 0) with (S754_zero false).
  destruct (Prim2SF x) as [[]|[]| |[] m e]; reflexivity.
Qed.

Lemma eqb_0_cases y : (y =? 0) = true -> y = 0 \/ y = -0.
Proof.
  rewrite FloatAxioms.eqb_spec. change (Prim2SF 0) with (S754_zero false).
  intros H. rewrite <- (SF2Prim_Prim2SF y).
  unfold SFeqb, SFcompare in H.
  destruct (Prim2SF y) as [[]|[]| |[] m e]; try discriminate;
    [right|left]; reflexivity.
Qed.

Lemma eqb_1_eq y : (y =? 1) = true -> y = 1.
Proof.
  rewrite FloatAxioms.eqb_spec.
  replace (Prim2SF 1) with (S754_finite false 4503599627370496 (-52))
    by (vm_compute; reflexivity).
  intros H. rewrite <- (SF2Prim_Prim2SF y).
  unfold SFeqb, SFcompare in H.
  destruct (Prim2SF y) as [[]|[]| |[] m e]; try discriminate.
  destruct (e ?= -52)%Z eqn:Ee; try discriminate.
  apply Z.compare_eq in Ee. subst e.
  destruct (PosDef.Pos.compare_cont Eq m 4503599627370496) eqn:Em;
    try discriminate.
  apply (Pos.compare_eq m) in Em. subst m.
  reflexivity.
Qed.

(** X11. The density is even, bit for bit: [pdf(-x)] and [pdf(x)] are the
    same binary64 value for every [x] and every [Math.exp]. *)
Theorem pdf_even (exp : float -> float) (x : float) :
  pdf exp (- x) = pdf exp x.
Proof. unfold pdf. now rewrite mul_opp_opp. Qed.

(** X12. The complementary distribution function is the distribution
    function mirrored: [cdf(-x)] and [cdfc(x)] are the same binary64 value,
    and so are [cdfc(-x)] and [cdf(x)]. *)
Theorem cdf_mirror (exp : float -> float) (x : float) :
  cdf exp (- x) = cdfc exp x /\ cdfc exp (- x) = cdf exp x.
Proof.
  unfold cdf, cdfc. now rewrite opp_involutive.
Qed.

(** X13. [NaN] goes through: [erfc], [erf], [cdf] and [cdfc] return [NaN]
    on [NaN], whatever [Math.exp] does with it. *)
Theorem nan_goes_through (exp : float -> float) :
  erfc exp nan = nan /\ erf exp nan = nan
  /\ cdf exp nan = nan /\ cdfc exp nan = nan.
Proof.
  assert (E : erfc exp nan = nan).
  { unfold erfc. change (nan <? 0) with false. cbv iota.
    unfold erfc_tail. change (30 <=? nan) with false. cbv iota.
    match goal with
    | |- fold_left _ _ (?u / ?d) = _ =>
        replace (u / d) with nan by (symmetry; exact (div_nan_r u))
    end.
    vm_compute. reflexivity. }
  unfold erf, cdf, cdfc.
  change (- nan / SQRT2) with nan. change (nan / SQRT2) with nan.
  rewrite E. repeat split; reflexivity.
Qed.

(** X14. Beyond 30 everything is saturated: for [x >= 30], [erfc(-x)] is
    exactly [2], [erf(x)] exactly [1] and [erf(-x)] exactly [-1]. *)
Theorem erf_saturates (exp : float -> float) (x : float) :
  (30 <=? x) = true ->
  erfc exp (- x) = 2 /\ erf exp x = 1 /\ erf exp (- x) = -1.
Proof.
  intros E.
  assert (E2 : erfc exp (- x) = 2).
  { rewrite (erfc_reflect exp (- x) (leb_30_opp_neg x E)), opp_involutive.
    now rewrite (erfc_saturates exp x E). }
  unfold erf. rewrite E2, (erfc_saturates exp x E).
  repeat split; reflexivity.
Qed.

Lemma erf_saturates_witness :
  erfc exp_series (- 31) = 2 /\ erf exp_series 31 = 1
  /\ erf exp_series (- 31) = -1.
Proof.
  apply (erf_saturates exp_series 31). reflexivity.
Defined.

(** ** What [probit] returns *)

Lemma iterate_residual (exp : float -> float) y k :
  nfx (iterate exp y k) = cdf exp (nx (iterate exp y k)) - y.
Proof. unfold iterate. destruct k; reflexivity. Qed.

(** X15. Whenever [probit(y)] returns after fewer than 40 Newton steps,
    the [x] it returns passes the convergence test: [|cdf(x) - y|] is not
    above [2.3e-16]. *)
Theorem probit_residual (exp : float -> float) (y x : float) (steps : nat) :
  probit exp y = Returned x steps -> (steps < 40)%nat ->
  (tolerance <? abs (cdf exp x - y)) = false.
Proof.
  unfold probit. destruct (_ || _); [discriminate|].
  destruct (y =? 0) eqn:E0.
  { intros [= <- <-] _.
    replace (cdf exp neg_infinity) with 0 by (vm_compute; reflexivity).
    destruct (eqb_0_cases y E0) as [->| ->]; reflexivity. }
  destruct (y =? 1) eqn:E1.
  { intros [= <- <-] _. rewrite (eqb_1_eq y E1).
    replace (cdf exp infinity) with 1 by (vm_compute; reflexivity).
    reflexivity. }
  cbv zeta.
  destruct (newton_run_spec exp y 40 (newton_init exp y) eq_refl)
    as (k & E & _ & _ & Hf & _).
  fold (iterate exp y k) in E.
  destruct (newton_run exp 40 y (newton_init exp y)) as [x' fx' c'] eqn:Es.
  cbn [nx cnt]. intros [= <- <-] Hlt.
  assert (Hfx : fx' = cdf exp x' - y).
  { pose proof (iterate_residual exp y k) as R. rewrite <- E in R.
    exact R. }
  unfold newton_test in Hf. cbn [nfx cnt] in Hf. rewrite <- Hfx.
  apply andb_false_iff in Hf as [Hf|Hf]; [assumption|].
  apply Nat.ltb_ge in Hf. lia.
Qed.

Lemma probit_residual_witness :
  (tolerance <? abs (cdf exp_series (-0.52440051270804089) - 0.3)) = false.
Proof.
  apply (probit_residual exp_series 0.3 (-0.52440051270804089) 4);
    [vm_compute; reflexivity|lia].
Defined.

(** ** The range and the ticks *)

(** X16. With no range chosen the probability shown is exactly [1]; with
    only the right end chosen it is [cdf(right)] itself, and with only the
    left end chosen [1 - cdf(left)]. *)
Theorem prob_open_ends (exp : float -> float) :
  prob exp nan nan = 1
  /\ (forall r, prob exp nan r = cdf exp (get_right r))
  /\ (forall l, prob exp l nan = 1 - cdf exp (get_left l)).
Proof.
  unfold prob.
  change (get_left nan) with neg_infinity.
  change (get_right nan) with infinity.
  replace (cdf exp neg_infinity) with 0 by (vm_compute; reflexivity).
  replace (cdf exp infinity) with 1 by (vm_compute; reflexivity).
  repeat split; auto using sub_0_r.
Qed.

(** X17. The ticks of the axes follow the pattern of a ruler, on both sides
    of zero: the divisor of the tick at the integer [x] times the greatest
    common divisor of [x] and 8 is 8, and it is 1, the full length of a
    labelled tick, exactly at the multiples of 8. *)
Theorem ticks_like_a_ruler (x : Z) :
  (tick_divisor x * Z.gcd x 8 = 8)%Z
  /\ (tick_divisor x = 1 <-> Z.rem x 8 = 0)%Z.
Proof.
  unfold tick_divisor. cbv zeta.
  pose proof (Z.quot_rem' x 8) as Hx.
  assert (Hr : (-8 < Z.rem x 8 < 8)%Z).
  { pose proof (Z.rem_bound_abs x 8 ltac:(lia)). lia. }
  assert (Hg : Z.gcd x 8 = Z.gcd (Z.rem x 8) 8).
  { rewrite Hx at 1.
    rewrite Z.add_comm, (Z.mul_comm 8), (Z.gcd_comm _ 8).
    rewrite Z.gcd_add_mult_diag_r. apply Z.gcd_comm. }
  rewrite Hg. generalize dependent (Z.rem x 8). intros r _ Hr _.
  assert (C : (r = -7 \/ r = -6 \/ r = -5 \/ r = -4 \/ r = -3 \/ r = -2
               \/ r = -1 \/ r = 0 \/ r = 1 \/ r = 2 \/ r = 3 \/ r = 4
               \/ r = 5 \/ r = 6 \/ r = 7)%Z) by lia.
  repeat (destruct C as [->|C]); try subst r;
    (split; [reflexivity|split; intros H; [discriminate H || reflexivity|
                                           discriminate H || reflexivity]]).
Qed.

End NormalFacts.
